(** * Route analyzer: cost matrix, stop sequencing, route evaluation, selection

    A shallow embedding of [backend/route_analyzer.py].

    Conventions of the embedding:
    - A finite Python [float] is the rational it stands for. Where the
      program computes with floats (the padding of the bounding box, the
      risk score, the time in minutes) the result is rounded as binary64
      arithmetic rounds it, and a JSON number is an [int] or a [float] as
      Python decodes it ([pynum]). Numbers the program only passes on or
      compares (coordinates, path lengths, turn angles) are rationals [Q];
      [float("inf")] in the distance matrix is the separate constructor
      [Infinity] of [cost].
    - A raised exception is the [Raise] constructor of [result]; statements
      are sequenced with the bind of that monad, so the first exception
      aborts what follows, as in Python.
    - The three external collaborators (OSMnx/NetworkX graph, the CBC solver
      behind PuLP, the Valhalla HTTP service) are oracles passed as
      arguments. [prob.solve] is taken to return: PuLP reports an infeasible
      or unsolved program through the status it leaves behind.
    - The JSON answer of the routing service is typed as the program reads
      it: keys read with [d[key]] are fields, keys read with
      [d.get(key, default)] are optional fields. *)

From Stdlib Require Import QArith Qround Qabs Qpower ZArith Lia Lqa Sorted Permutation.
From stdpp Require Import gmap strings list.

(** ** Exceptions and the error monad *)

Inductive exn : Type :=
  | KeyError            (* dict lookup on a missing key *)
  | IndexError          (* list index out of range *)
  | ValueError          (* max()/min() of an empty sequence *)
  | NetworkXNoPath      (* nx.shortest_path_length: no path *)
  | NodeNotFound        (* nx.shortest_path_length: unknown node *)
  | GraphError          (* a failure of the graph download or node lookup *)
  | RuntimeError        (* raised by get_safe_route on a failed request *)
  | JSONDecodeError     (* response.json() on a body that is not JSON *)
  | PulpError           (* PuLP: a variable multiplied by an infinite number *)
  | OverflowError       (* an int too large for the float it is converted to *)
  | OptimizationError.  (* named by the specification; no code path raises it *)

#[global] Instance exn_eq_dec : EqDecision exn.
Proof. solve_decision. Defined.

Inductive result (A : Type) : Type :=
  | Ok (a : A)
  | Raise (e : exn).
Arguments Ok {A} a.
Arguments Raise {A} e.

#[global] Instance result_ret : MRet result := fun A a => Ok a.
#[global] Instance result_bind : MBind result :=
  fun A B f m => match m with Ok a => f a | Raise e => Raise e end.

Definition is_Ok {A} (r : result A) : Prop := exists a, r = Ok a.

(** ** Python list primitives *)

(** [l[i]] for a Python int [i]: negative indices count from the end. *)
Definition py_getitem {A} (l : list A) (i : Z) : result A :=
  let len := Z.of_nat (length l) in
  let k := if (i <? 0)%Z then (len + i)%Z else i in
  if (k <? 0)%Z then Raise IndexError
  else match l !! Z.to_nat k with
       | Some a => Ok a
       | None => Raise IndexError
       end.

(** [l[:k]]: a negative [k] drops [-k] elements from the end. *)
Definition py_slice_to {A} (l : list A) (k : Z) : list A :=
  if (k <? 0)%Z then take (length l - Z.to_nat (- k)) l
  else take (Z.to_nat k) l.

(** [range(n)] and [range(lo, hi)] for arguments that may be negative; the
    values produced are never negative in this program, so they are [nat]. *)
Definition range (n : Z) : list nat := seq 0 (Z.to_nat n).
Definition range_from (lo : nat) (hi : Z) : list nat :=
  seq lo (Z.to_nat hi - lo).

(** [enumerate(l)] *)
Definition enumerate {A} (l : list A) : list (nat * A) :=
  imap (fun i a => (i, a)) l.

(** [max(l)] and [min(l)] on numbers. *)
Definition Qmax (a b : Q) : Q := if Qle_bool a b then b else a.
Definition Qmin (a b : Q) : Q := if Qle_bool a b then a else b.
Definition py_max (l : list Q) : result Q :=
  match l with
  | [] => Raise ValueError
  | a :: l' => Ok (foldl Qmax a l')
  end.
Definition py_min (l : list Q) : result Q :=
  match l with
  | [] => Raise ValueError
  | a :: l' => Ok (foldl Qmin a l')
  end.

(** ** Python numbers *)

(** A Python [float] is an IEEE 754 binary64 number. A finite one is
    modelled by its exact rational value, the two infinities are separate
    constructors; a negative zero is not told from zero, which no
    comparison of the program does either. [nan] is left out: the program
    makes none from the numbers modelled here.

    [round64 q] is the rational nearest to [q] of the form [m * 2^e] with
    [|m| <= 2^53] and [e >= -1074], ties going to the even [m]: the
    round-to-nearest-even of the hardware, before overflow is looked at. *)
Definition pow2 (e : Z) : Q := (2 ^ e)%Q.

(** The integer nearest to [t], ties to even. *)
Definition rne (t : Q) : Z :=
  let f := Qfloor t in
  match (t - inject_Z f ?= 1 # 2)%Q with
  | Lt => f
  | Gt => (f + 1)%Z
  | Eq => if Z.even f then f else (f + 1)%Z
  end.

(** [ilog2 q] is the [L] with [2^L <= |q| < 2^(L+1)], for [q] not zero. *)
Definition ilog2 (q : Q) : Z :=
  let L := (Z.log2 (Z.abs (Qnum q)) - Z.log2 (Zpos (Qden q)))%Z in
  if Qle_bool (pow2 L) (Qabs q) then L else (L - 1)%Z.

(** The exponent of the last bit of the double nearest to [q]: 53 bits of
    precision, subnormal below [2^-1022]. *)
Definition float_exponent (q : Q) : Z :=
  if (Qnum q =? 0)%Z then (-1074)%Z else Z.max (ilog2 q - 52) (-1074).

Definition round64 (q : Q) : Q :=
  let e := float_exponent q in
  (inject_Z (rne (q / pow2 e)) * pow2 e)%Q.

Inductive pyfloat : Type :=
  | Fin (q : Q)
  | PosInf
  | NegInf.

(** The result of a float operation whose exact value is [q]: a rounded
    value of magnitude [2^1024] or more is an infinity. *)
Definition to_float (q : Q) : pyfloat :=
  let r := round64 q in
  if Qle_bool (pow2 1024) r then PosInf
  else if Qle_bool r (- pow2 1024) then NegInf
  else Fin (Qred r).

(** [float(z)] for an int [z], as the mixed operations convert their int
    operand: [OverflowError] when the rounded value is out of range. *)
Definition float_of_int (z : Z) : result Q :=
  let r := round64 (inject_Z z) in
  if Qle_bool (pow2 1024) (Qabs r) then Raise OverflowError
  else Ok (Qred r).

(** [a + y], [a - y] and [a / y] on floats, for a finite [y] (and [y > 0]
    in the division): the second operand is a literal or a converted int in
    this program. *)
Definition float_add (a : pyfloat) (y : Q) : pyfloat :=
  match a with
  | Fin x => to_float (x + y)
  | PosInf => PosInf
  | NegInf => NegInf
  end.

Definition float_sub (a : pyfloat) (y : Q) : pyfloat :=
  match a with
  | Fin x => to_float (x - y)
  | PosInf => PosInf
  | NegInf => NegInf
  end.

Definition float_div (a : pyfloat) (y : Q) : pyfloat :=
  match a with
  | Fin x => to_float (x / y)
  | PosInf => PosInf
  | NegInf => NegInf
  end.

(** A JSON number as [response.json()] decodes it: an [int] of any size or
    a [float]. *)
Inductive pynum : Type :=
  | PyInt (z : Z)
  | PyFloat (f : pyfloat).

(** [a + k] for an int [k]: exact on an int, a float addition (after
    [float(k)]) on a float. *)
Definition py_add (a : pynum) (k : Z) : result pynum :=
  match a with
  | PyInt z => Ok (PyInt (z + k))
  | PyFloat f => y ← float_of_int k; Ok (PyFloat (float_add f y))
  end.

(** [a / d] for a positive int literal [d]: true division always makes a
    float. On an int it is the correctly rounded quotient, or
    [OverflowError] when that is out of range. *)
Definition py_truediv (a : pynum) (d : positive) : result pynum :=
  match a with
  | PyInt z =>
      let r := round64 (inject_Z z / inject_Z (Zpos d)) in
      if Qle_bool (pow2 1024) (Qabs r) then Raise OverflowError
      else Ok (PyFloat (Fin (Qred r)))
  | PyFloat f => y ← float_of_int (Zpos d); Ok (PyFloat (float_div f y))
  end.

(** Comparisons of numbers are exact, also between an int and a float:
    they compare the values. *)
Definition py_value (a : pynum) : pyfloat :=
  match a with
  | PyInt z => Fin (inject_Z z)
  | PyFloat f => f
  end.

Definition float_leb (a b : pyfloat) : bool :=
  match a, b with
  | NegInf, _ => true
  | _, PosInf => true
  | Fin x, Fin y => Qle_bool x y
  | _, _ => false
  end.

(** [a <= b] and [a == b] *)
Definition py_leb (a b : pynum) : bool := float_leb (py_value a) (py_value b).
Definition py_eqb (a b : pynum) : bool := py_leb a b && py_leb b a.

(** ** Data model *)

(** [Coordinate = Tuple[float, float]], (lon, lat), both finite. *)
Definition Coordinate : Type := Q * Q.

(** Graph nodes are OSM identifiers. *)
Definition node : Type := Z.

(** An entry of the distance matrix: a path length or [float("inf")]. *)
Inductive cost : Type :=
  | Finite (d : Q)
  | Infinity.

(** The road graph, seen through the two queries the program makes:
    [ox.nearest_nodes(G, lon, lat)] and
    [nx.shortest_path_length(G, u, v, weight="length")]. *)
Record Graph : Type := {
  nearest_nodes : Q -> Q -> result node;
  shortest_path_length : node -> node -> result Q
}.

(** ** get_osm_graph *)

(** The literal [0.1]: the double nearest to one tenth. *)
Definition tenth : Q := round64 (1 # 10).

Definition get_osm_graph
    (graph_from_bbox : pyfloat * pyfloat * pyfloat * pyfloat -> result Graph)
    (points : list Coordinate) : result Graph :=
  let lats := map snd points in
  let lons := map fst points in
  hi_lat ← py_max lats;
  lo_lat ← py_min lats;
  let north := float_add (Fin hi_lat) tenth in
  let south := float_sub (Fin lo_lat) tenth in
  hi_lon ← py_max lons;
  lo_lon ← py_min lons;
  let east := float_add (Fin hi_lon) tenth in
  let west := float_sub (Fin lo_lon) tenth in
  graph_from_bbox (north, south, east, west).

(** ** compute_distance_matrix *)

(** The body of the inner loop: one entry of row [i]. *)
Definition matrix_entry (G : Graph) (i : nat) (node_i : node)
    (j : nat) (node_j : node) : result cost :=
  if decide (i = j) then Ok (Finite 0)
  else match shortest_path_length G node_i node_j with
       | Ok dist => Ok (Finite dist)
       | Raise NetworkXNoPath => Ok Infinity
       | Raise e => Raise e
       end.

Definition matrix_row (G : Graph) (nodes : list node)
    (i : nat) (node_i : node) : result (list cost) :=
  mapM (fun '(j, node_j) => matrix_entry G i node_i j node_j)
       (enumerate nodes).

Definition compute_distance_matrix (G : Graph) (points : list Coordinate)
    : result (list (list cost)) :=
  nodes ← mapM (fun '(lon, lat) => nearest_nodes G lon lat) points;
  mapM (fun '(i, node_i) => matrix_row G nodes i node_i) (enumerate nodes).

(** ** get_top_stop_orders: the integer program (lines 44-62) *)

(** PuLP variables, identified by the name they are created with:
    [x_(i,_j)] (binary) and [u_i] (integer in [1, n]). *)
Inductive lpvar : Type :=
  | X (i j : nat)
  | U (i : nat).

Inductive lpsense : Type := LpEq | LpLe.

(** A linear constraint [sum (coefficient * variable) (==|<=) rhs]. *)
Record LpConstraint : Type := {
  lhs : list (Z * lpvar);
  sense : lpsense;
  rhs : Z
}.

Record LpProblem : Type := {
  objective : list (cost * lpvar);
  constraints : list LpConstraint
}.

(** What [prob.solve] leaves behind: a status, and a value ([None] when the
    solver assigned none) for each variable, read back by [pulp.value]. *)
Inductive LpStatus : Type :=
  | LpStatusOptimal
  | LpStatusNotSolved
  | LpStatusInfeasible
  | LpStatusUnbounded
  | LpStatusUndefined.

Record LpSolution : Type := {
  lp_status : LpStatus;
  varValue : lpvar -> option Q
}.

(** [d[k]] on a Python dict. *)
Definition py_dict_get `{Countable K} {V} (d : gmap K V) (k : K) : result V :=
  match d !! k with
  | Some v => Ok v
  | None => Raise KeyError
  end.

(** The generator [(i, j) for i in range(n) for j in range(n) if i != j]. *)
Definition off_diagonal (n : Z) : list (nat * nat) :=
  i ← range n; j ← range n; if decide (i ≠ j) then [(i, j)] else [].

(** [x = pulp.LpVariable.dicts("x", ..., cat="Binary")]: a plain dict whose
    keys are exactly the pairs of the generator. *)
Definition x_vars (n : Z) : gmap (nat * nat) lpvar :=
  list_to_map ((fun '(i, j) => ((i, j), X i j)) <$> off_diagonal n).

(** [u = pulp.LpVariable.dicts("u", range(n), lowBound=1, upBound=n, ...)] *)
Definition u_vars (n : Z) : gmap nat lpvar :=
  list_to_map ((fun i => (i, U i)) <$> range n).

(** [c * v] for a number [c] and a PuLP variable [v]: PuLP refuses an
    infinite coefficient. *)
Definition lp_scale (c : cost) (v : lpvar) : result (cost * lpvar) :=
  match c with
  | Finite _ => Ok (c, v)
  | Infinity => Raise PulpError
  end.

(** Line 51: the objective, one term [dist_matrix[i + 1][j + 1] * x[i, j]]
    per generated pair. *)
Definition tsp_objective (dist_matrix : list (list cost))
    (x : gmap (nat * nat) lpvar) (n : Z) : result (list (cost * lpvar)) :=
  mapM (fun '(i, j) =>
          row ← py_getitem dist_matrix (Z.of_nat i + 1);
          c ← py_getitem row (Z.of_nat j + 1);
          v ← py_dict_get x (i, j);
          lp_scale c v)
       (off_diagonal n).

(** [pulp.lpSum(x[k] for k in keys)] with unit coefficients. *)
Definition lp_sum (x : gmap (nat * nat) lpvar) (keys : list (nat * nat))
    : result (list (Z * lpvar)) :=
  mapM (fun k => v ← py_dict_get x k; Ok (1%Z, v)) keys.

(** Lines 53-55: one outgoing and one incoming edge per stop. *)
Definition degree_constraints (x : gmap (nat * nat) lpvar) (n : Z)
    : result (list LpConstraint) :=
  per_stop ←
    mapM (fun i =>
            out ← lp_sum x ((fun j => (i, j)) <$> filter (fun j => j ≠ i) (range n));
            inc ← lp_sum x ((fun j => (j, i)) <$> filter (fun j => j ≠ i) (range n));
            Ok [ {| lhs := out; sense := LpEq; rhs := 1 |};
                 {| lhs := inc; sense := LpEq; rhs := 1 |} ])
         (range n);
  Ok (concat per_stop).

(** Lines 57-60: [u[i] - u[j] + n * x[i, j] <= n - 1] for all [i != j]. *)
Definition mtz_constraints (x : gmap (nat * nat) lpvar) (u : gmap nat lpvar)
    (n : Z) : result (list LpConstraint) :=
  mapM (fun '(i, j) =>
          ui ← py_dict_get u i;
          uj ← py_dict_get u j;
          xij ← py_dict_get x (i, j);
          Ok {| lhs := [(1%Z, ui); ((-1)%Z, uj); (n, xij)];
                sense := LpLe; rhs := (n - 1)%Z |})
       (off_diagonal n).

(** ** get_top_stop_orders: path reconstruction (lines 64-72) *)

(** [pulp.value(v) == 1] *)
Definition value_is_one (sol : LpSolution) (v : lpvar) : bool :=
  match varValue sol v with
  | Some q => Qeq_bool q 1
  | None => false
  end.

(** The inner loop [for j in range(n): if pulp.value(x[current, j]) == 1:
    ...; break], over the remaining values [js] of [j]. [Some j] is the
    stop the loop breaks at, [None] means it ran to its end. *)
Fixpoint find_next (x : gmap (nat * nat) lpvar) (sol : LpSolution)
    (current : nat) (js : list nat) : result (option nat) :=
  match js with
  | [] => Ok None
  | j :: js' =>
      v ← py_dict_get x (current, j);
      if value_is_one sol v then Ok (Some j)
      else find_next x sol current js'
  end.

(** The outer loop [for _ in range(n)], with [steps] iterations left. *)
Fixpoint follow_edges (x : gmap (nat * nat) lpvar) (sol : LpSolution)
    (n : Z) (steps : nat) (order : list Z) (current : nat)
    : result (list Z) :=
  match steps with
  | O => Ok order
  | S steps' =>
      found ← find_next x sol current (range n);
      match found with
      | Some j => follow_edges x sol n steps'
                    (order ++ [(Z.of_nat j + 1)%Z]) j
      | None => follow_edges x sol n steps' order current
      end
  end.

(** ** get_top_stop_orders: alternates (lines 73-79) *)

(** [alt = order.copy(); alt[i], alt[i + 1] = alt[i + 1], alt[i]] *)
Definition swap_adjacent (order : list Z) (i : nat) : result (list Z) :=
  a ← py_getitem order (Z.of_nat i + 1);
  b ← py_getitem order (Z.of_nat i);
  Ok (<[S i := b]> (<[i := a]> order)).

Definition candidate_orders (order : list Z) (n : Z) (num_orders : Z)
    : result (list (list Z)) :=
  alts ← mapM (swap_adjacent order) (range_from 1 (Z.min n 4));
  Ok (py_slice_to (order :: alts) num_orders).

Definition get_top_stop_orders (cbc : LpProblem -> LpSolution)
    (dist_matrix : list (list cost)) (num_orders : Z)
    : result (list (list Z)) :=
  let n := (Z.of_nat (length dist_matrix) - 2)%Z in
  let x := x_vars n in
  let u := u_vars n in
  obj ← tsp_objective dist_matrix x n;
  deg ← degree_constraints x n;
  mtz ← mtz_constraints x u n;
  let sol := cbc {| objective := obj; constraints := deg ++ mtz |} in
  visited ← follow_edges x sol n (Z.to_nat n) [0%Z] 0;
  let order := visited ++ [(Z.of_nat (length dist_matrix) - 1)%Z] in
  candidate_orders order n num_orders.

(** ** get_safe_route *)

(** One maneuver of the routing service's answer. The two fields the program
    reads are read with [m.get(key, default)], so either may be absent. *)
Record Maneuver : Type := {
  turn_degree : option Q;
  verbal_turn_alert : option string
}.

(** [leg["summary"]]: two JSON numbers. *)
Record Summary : Type := {
  summary_length : pynum;
  summary_time : pynum
}.

(** [data["trip"]["legs"][k]] *)
Record Leg : Type := {
  shape : string;
  summary : Summary;
  leg_maneuvers : list Maneuver
}.

(** The decoded JSON answer [data], reduced to [data["trip"]["legs"]]. *)
Record TripResponse : Type := {
  legs : list Leg
}.

Record Location : Type := {
  lon : Q;
  lat : Q
}.

Record TruckCosting : Type := {
  u_turn_penalty : Z;
  left_hand_turn_penalty : Z;
  maneuver_penalty : Z;
  height : Q;
  width : Q;
  weight : Z
}.

Record Payload : Type := {
  locations : list Location;
  costing : string;
  costing_options : TruckCosting;
  directions_units : string;
  alternatives : Z
}.

(** What [requests.post] does: it raises a [requests.RequestException]
    (connection failure, timeout), or it returns a response with a status
    code and a body, which is valid JSON ([Some]) or not ([None]). *)
Inductive HttpOutcome : Type :=
  | RequestException
  | Response (status_code : Z) (body : option TripResponse).

(** The dict returned by [get_safe_route]. *)
Record Route : Type := {
  polyline : string;
  distance : pynum;
  time : pynum;
  risk_score : pynum;
  maneuvers : list Maneuver
}.

(** [a > b] on numbers. *)
Definition Qgt_bool (a b : Q) : bool := negb (Qle_bool a b).

(** [s.startswith(p)] *)
Fixpoint starts_with (p s : string) : bool :=
  match p, s with
  | EmptyString, _ => true
  | String a p', String b s' => if decide (a = b) then starts_with p' s' else false
  | String _ _, EmptyString => false
  end.

(** [sub in s] on strings: [sub] occurs somewhere in [s]. *)
Fixpoint py_in (sub s : string) : bool :=
  starts_with sub s ||
  match s with
  | EmptyString => false
  | String _ s' => py_in sub s'
  end.

(** The condition of the generator on lines 113-114:
    [m.get("turn_degree", 0) > 90 and "left" in m.get("verbal_turn_alert", "")] *)
Definition is_left_turn (m : Maneuver) : bool :=
  Qgt_bool (default 0%Q (turn_degree m)) 90
  && py_in "left" (default ""%string (verbal_turn_alert m)).

(** [sum(1 for m in ms if ...)] *)
Definition left_turns (ms : list Maneuver) : nat :=
  length (filter (fun m => is_left_turn m = true) ms).

(** Lines 110-123, from the first leg on: [left_turns * 5] is an int,
    added to the length as Python adds an int to an int or to a float; the
    time is a true division by the int [60]. *)
Definition route_of_leg (leg : Leg) : result Route :=
  let left := left_turns (leg_maneuvers leg) in
  risk ← py_add (summary_length (summary leg)) (Z.of_nat left * 5);
  minutes ← py_truediv (summary_time (summary leg)) 60;
  Ok {| polyline := shape leg;
        distance := summary_length (summary leg);
        time := minutes;
        risk_score := risk;
        maneuvers := leg_maneuvers leg |}.

Definition truck_costing : TruckCosting :=
  {| u_turn_penalty := 10000;
     left_hand_turn_penalty := 5000;
     maneuver_penalty := 2000;
     height := 45 # 10;
     width := 3;
     weight := 20000 |}.

Definition default_valhalla_url : string := "http://localhost:8002/route".

(** [response.raise_for_status()] raises for 4xx and 5xx codes. *)
Definition is_error_status (code : Z) : bool :=
  (400 <=? code)%Z && (code <? 600)%Z.

Definition get_safe_route (post : string -> Payload -> HttpOutcome)
    (order : list Z) (points : list Coordinate) (valhalla_url : string)
    : result Route :=
  locs ← mapM (fun i => p ← py_getitem points i;
                        Ok {| lon := fst p; lat := snd p |}) order;
  let payload := {| locations := locs;
                    costing := "truck";
                    costing_options := truck_costing;
                    directions_units := "miles";
                    alternatives := 1 |} in
  match post valhalla_url payload with
  | RequestException => Raise RuntimeError
  | Response code body =>
      if is_error_status code then Raise RuntimeError
      else match body with
           | None => Raise JSONDecodeError
           | Some data =>
               leg ← py_getitem (legs data) 0;
               route_of_leg leg
           end
  end.

(** ** analyze_routes *)

(** [routes.sort(key=lambda r: r["risk_score"])]: Python's list sort is
    stable and compares the keys by value. Insertion from the right, each
    element going in front of the first element whose key is not smaller,
    is the stable sort. *)
Fixpoint insert_by_risk (r : Route) (sorted : list Route) : list Route :=
  match sorted with
  | [] => [r]
  | r' :: rest =>
      if py_leb (risk_score r) (risk_score r') then r :: r' :: rest
      else r' :: insert_by_risk r rest
  end.

Definition sort_by_risk (routes : list Route) : list Route :=
  foldr insert_by_risk [] routes.

(** Lines 131-137: the loop over the candidate orders. Only [RuntimeError]
    is caught; any other exception leaves the loop and the function. *)
Fixpoint evaluate_orders (post : string -> Payload -> HttpOutcome)
    (points : list Coordinate) (orders : list (list Z))
    : result (list Route) :=
  match orders with
  | [] => Ok []
  | order :: rest =>
      match get_safe_route post order points default_valhalla_url with
      | Ok route => routes ← evaluate_orders post points rest;
                    Ok (route :: routes)
      | Raise RuntimeError => evaluate_orders post points rest
      | Raise e => Raise e
      end
  end.

(** Lines 131-139: evaluation, sort and truncation, for a given candidate
    list. *)
Definition select_routes (post : string -> Payload -> HttpOutcome)
    (points : list Coordinate) (orders : list (list Z))
    : result (list Route) :=
  routes ← evaluate_orders post points orders;
  Ok (py_slice_to (sort_by_risk routes) 3).

(** The collaborators of one run. *)
Record World : Type := {
  graph_from_bbox : pyfloat * pyfloat * pyfloat * pyfloat -> result Graph;
  cbc_solve : LpProblem -> LpSolution;
  http_post : string -> Payload -> HttpOutcome
}.

Definition analyze_routes (w : World) (origin destination : Coordinate)
    (stops : list Coordinate) : result (list Route) :=
  let points := [origin] ++ stops ++ [destination] in
  G ← get_osm_graph (graph_from_bbox w) points;
  dist_matrix ← compute_distance_matrix G points;
  orders ← get_top_stop_orders (cbc_solve w) dist_matrix 5;
  select_routes (http_post w) points orders.

(** ** Vocabulary of the properties *)

(** A Stop Order over [N] waypoints: the origin [0], the intermediate stops
    [1 .. N-2] in some order, the destination [N-1]. *)
Definition is_stop_order (N : Z) (o : list Z) : Prop :=
  exists mid, o = 0%Z :: mid ++ [(N - 1)%Z] /\ mid ≡ₚ seqZ 1 (N - 2).

(** [alt] is [order] with the entries at positions [i] and [i + 1]
    exchanged and every other entry unchanged. *)
Definition is_adjacent_swap (i : nat) (order alt : list Z) : Prop :=
  length alt = length order /\
  alt !! i = order !! S i /\
  alt !! S i = order !! i /\
  forall p, p ≠ i -> p ≠ S i -> alt !! p = order !! p.

(** [r] raises nothing but exceptions satisfying [P]. *)
Definition raises_only {A} (P : exn -> Prop) (r : result A) : Prop :=
  forall e, r = Raise e -> P e.

(** The exceptions of list indexing and dict lookup. *)
Definition lookup_error (e : exn) : Prop := e = KeyError \/ e = IndexError.

(** The exceptions of the sequencer: those of indexing and lookup, and
    PuLP's on an infinite coefficient. *)
Definition sequencer_error (e : exn) : Prop :=
  e = KeyError \/ e = IndexError \/ e = PulpError.

(** The matrix is square. *)
Definition is_square (dist_matrix : list (list cost)) : Prop :=
  Forall (fun row => length row = length dist_matrix) dist_matrix.

(** Waypoint [b] cannot be reached from waypoint [a]: the entry is
    [float("inf")]. *)
Definition unreachable (dist_matrix : list (list cost)) (a b : nat) : Prop :=
  exists row, dist_matrix !! a = Some row /\ row !! b = Some Infinity.

(** Two intermediate stops: waypoints [1 .. N-2], different from each
    other. Line 51 reads the matrix at these pairs only. *)
Definition stop_pair (dist_matrix : list (list cost)) (a b : nat) : Prop :=
  1 <= a /\ a + 2 <= length dist_matrix /\
  1 <= b /\ b + 2 <= length dist_matrix /\ a <> b.

(** The routes of the candidate evaluations that succeed, in candidate
    order. *)
Definition successes (post : string -> Payload -> HttpOutcome)
    (points : list Coordinate) (orders : list (list Z)) : list Route :=
  omap (fun order =>
          match get_safe_route post order points default_valhalla_url with
          | Ok r => Some r
          | Raise _ => None
          end) orders.

(** Every candidate evaluation that fails does so with the routing-service
    error, the [RuntimeError] of line 107. *)
Definition only_routing_failures (post : string -> Payload -> HttpOutcome)
    (points : list Coordinate) (orders : list (list Z)) : Prop :=
  forall order e,
    order ∈ orders ->
    get_safe_route post order points default_valhalla_url = Raise e ->
    e = RuntimeError.

(** Two JSON numbers of the same Python type. *)
Definition same_kind (a b : pynum) : Prop :=
  match a, b with
  | PyInt _, PyInt _ => True
  | PyFloat _, PyFloat _ => True
  | _, _ => False
  end.

Definition risk_le (a b : Route) : Prop :=
  py_leb (risk_score a) (risk_score b) = true.

(** [r] has risk score [q]: the two numbers are equal by value. *)
Definition has_risk (q : pynum) (r : Route) : Prop :=
  py_eqb (risk_score r) q = true.

#[global] Instance has_risk_dec (q : pynum) (r : Route) : Decision (has_risk q r).
Proof. unfold has_risk. apply _. Defined.

(** The selection returns exactly three routes, and they are the first three
    of [ranked], the successful routes sorted by ascending risk score with
    routes of equal risk score left in candidate order. *)
Definition returns_top_three (post : string -> Payload -> HttpOutcome)
    (points : list Coordinate) (orders : list (list Z)) : Prop :=
  exists ranked rs,
    select_routes post points orders = Ok rs /\
    length rs = 3 /\
    rs = take 3 ranked /\
    StronglySorted risk_le rs /\
    ranked ≡ₚ successes post points orders /\
    StronglySorted risk_le ranked /\
    forall q, filter (has_risk q) ranked
              = filter (has_risk q) (successes post points orders).

(** ** Meaning of the integer program *)

(** The value of a linear expression under an assignment of the variables. *)
Definition lp_eval (val : lpvar -> Z) (terms : list (Z * lpvar)) : Z :=
  foldr (fun '(c, v) acc => (c * val v + acc)%Z) 0%Z terms.

Definition satisfies (val : lpvar -> Z) (c : LpConstraint) : Prop :=
  match sense c with
  | LpEq => lp_eval val (lhs c) = rhs c
  | LpLe => (lp_eval val (lhs c) <= rhs c)%Z
  end.

(** The bounds the variables are created with: [x] binary,
    [u] between [1] and [n]. *)
Definition within_bounds (n : Z) (val : lpvar -> Z) : Prop :=
  (forall i j, (0 <= val (X i j) <= 1)%Z) /\
  (forall i, (1 <= val (U i) <= n)%Z).

(** [val] is a feasible point of a program with constraints [cs]. *)
Definition feasible (n : Z) (cs : list LpConstraint) (val : lpvar -> Z) : Prop :=
  within_bounds n val /\ Forall (satisfies val) cs.

(** The constraints the loops of lines 53-60 add, written out: the two
    degree constraints of stop [i] and the ordering constraint of the pair
    [(i, j)]. *)
Definition out_degree (n : Z) (i : nat) : LpConstraint :=
  {| lhs := (fun j => (1%Z, X i j)) <$> filter (fun j => j ≠ i) (range n);
     sense := LpEq; rhs := 1 |}.
Definition in_degree (n : Z) (i : nat) : LpConstraint :=
  {| lhs := (fun j => (1%Z, X j i)) <$> filter (fun j => j ≠ i) (range n);
     sense := LpEq; rhs := 1 |}.
Definition ordering (n : Z) (i j : nat) : LpConstraint :=
  {| lhs := [(1%Z, U i); ((-1)%Z, U j); (n, X i j)];
     sense := LpLe; rhs := (n - 1)%Z |}.

(** ** Concrete inputs *)

(** A solver that reports infeasibility and assigns no value. *)
Definition infeasible_cbc (_ : LpProblem) : LpSolution :=
  {| lp_status := LpStatusInfeasible; varValue := fun _ => None |}.

(** A solver that reports an optimal solution although it assigns no value. *)
Definition optimistic_cbc (_ : LpProblem) : LpSolution :=
  {| lp_status := LpStatusOptimal; varValue := fun _ => None |}.

(** Square matrices with zero diagonal for 2, 3 and 4 waypoints. *)
Definition dm2 : list (list cost) :=
  [ [Finite 0; Finite 7];
    [Finite 7; Finite 0] ].
Definition dm3 : list (list cost) :=
  [ [Finite 0; Finite 4; Finite 9];
    [Finite 4; Finite 0; Finite 5];
    [Finite 9; Infinity; Finite 0] ].
Definition dm4 : list (list cost) :=
  [ [Finite 0; Finite 4; Finite 9; Finite 2];
    [Finite 4; Finite 0; Finite 5; Finite 3];
    [Finite 9; Finite 5; Finite 0; Finite 6];
    [Finite 2; Finite 3; Finite 6; Finite 0] ].

(** A small graph on the nodes [0, 1, 2]: the node of a point is the
    integer part of its longitude, travel is possible in the direction of
    increasing node numbers only. *)
Definition line_graph : Graph :=
  {| nearest_nodes := fun lon _ => Ok (Qfloor lon);
     shortest_path_length := fun u v =>
       if (u <=? v)%Z then Ok (inject_Z (v - u)) else Raise NetworkXNoPath |}.

Definition line_points : list Coordinate := [(0, 0); (1, 0); (2, 0)]%Q.

(** Six waypoints (four stops) and the four candidates the alternates loop
    makes from the identity order. *)
Definition six_points : list Coordinate :=
  [(0, 0); (1, 0); (2, 0); (3, 0); (4, 0); (5, 0)]%Q.

Definition six_orders : list (list Z) :=
  [ [0; 1; 2; 3; 4; 5];
    [0; 2; 1; 3; 4; 5];
    [0; 1; 3; 2; 4; 5];
    [0; 1; 2; 4; 3; 5] ]%Z.

Definition sharp_left : Maneuver :=
  {| turn_degree := Some 135%Q;
     verbal_turn_alert := Some "Turn left onto Main Street."%string |}.
Definition sharp_right : Maneuver :=
  {| turn_degree := Some 135%Q;
     verbal_turn_alert := Some "Turn right onto Oak Avenue."%string |}.
Definition slight_left : Maneuver :=
  {| turn_degree := Some 45%Q;
     verbal_turn_alert := Some "Bear left."%string |}.
Definition start_maneuver : Maneuver :=
  {| turn_degree := None; verbal_turn_alert := None |}.

(** A leg of [len] miles and [secs] seconds, both floats. *)
Definition leg_of (len secs : Q) (ms : list Maneuver) : Leg :=
  {| shape := "_p~iF~ps|U";
     summary := {| summary_length := PyFloat (Fin len);
                   summary_time := PyFloat (Fin secs) |};
     leg_maneuvers := ms |}.

(** A routing service that answers by the order in which the six points
    are visited. *)
Definition six_post (_ : string) (payload : Payload) : HttpOutcome :=
  let visit := (fun l => Qfloor (lon l)) <$> locations payload in
  if decide (visit = [0; 1; 2; 3; 4; 5]%Z)
  then Response 200 (Some {| legs := [leg_of 10 1200 [start_maneuver; sharp_left]] |})
  else if decide (visit = [0; 2; 1; 3; 4; 5]%Z)
  then Response 200 (Some {| legs := [leg_of 15 1500 [start_maneuver; sharp_right]] |})
  else if decide (visit = [0; 1; 3; 2; 4; 5]%Z)
  then Response 200 (Some {| legs := [leg_of 9 900 [start_maneuver; slight_left]] |})
  else if decide (visit = [0; 1; 2; 4; 3; 5]%Z)
  then Response 200 (Some {| legs := [leg_of 20 1800 [start_maneuver]] |})
  else Response 400 None.

(** The route made of a leg of [leg_of], spelled out. *)
Definition route_of (len mins risk : pynum) (ms : list Maneuver) : Route :=
  {| polyline := "_p~iF~ps|U";
     distance := len;
     time := mins;
     risk_score := risk;
     maneuvers := ms |}.

(** Three candidates over the six waypoints; the service refuses the
    second. *)
Definition mixed_orders : list (list Z) :=
  [ [0; 1; 2; 3; 4; 5];
    [0; 3; 2; 1; 4; 5];
    [0; 2; 1; 3; 4; 5] ]%Z.

(** A leg whose summary numbers are ints. *)
Definition int_leg_of (len secs : Z) (ms : list Maneuver) : Leg :=
  {| shape := "_p~iF~ps|U";
     summary := {| summary_length := PyInt len; summary_time := PyInt secs |};
     leg_maneuvers := ms |}.

(** The double [0.03], as JSON decoding makes it. *)
Definition three_hundredths : Q := Qred (round64 (3 # 100)).

(** A routing service that is down. *)
Definition failing_post (_ : string) (_ : Payload) : HttpOutcome :=
  RequestException.

(** A run without intermediate stops whose routing service is down. *)
Definition offline_world : World :=
  {| graph_from_bbox := fun _ => Ok line_graph;
     cbc_solve := infeasible_cbc;
     http_post := failing_post |}.

(** * Properties *)

(** ** The error monad and [mapM] *)

Lemma bind_Ok_inv {A C} (m : result A) (g : A -> result C) (c : C) :
  (m ≫= g) = Ok c -> exists a, m = Ok a /\ g a = Ok c.
Proof. destruct m as [a|e]; simpl; [eauto | discriminate]. Qed.

Lemma bind_Raise_inv {A C} (m : result A) (g : A -> result C) (e : exn) :
  (m ≫= g) = Raise e -> m = Raise e \/ exists a, m = Ok a /\ g a = Raise e.
Proof. destruct m as [a|e']; simpl; [eauto | intros [= ->]; auto]. Qed.

Section mapM_result.
Context {A B : Type}.
Implicit Types (f : A -> result B) (l : list A) (k : list B).

Lemma mapM_Ok_Forall2 f l k :
  mapM f l = Ok k <-> Forall2 (fun a b => f a = Ok b) l k.
Proof.
  revert k. induction l as [|a l IH]; intros k; simpl.
  - split; [intros [= <-]; constructor | by inversion 1].
  - split.
    + intros (b & Hb & H)%bind_Ok_inv.
      destruct (mapM f l) as [k'|] eqn:Hk; [|discriminate].
      simpl in H. injection H as <-. constructor; [done | by apply IH].
    + inversion 1 as [|? b ? k' Hb Hk]; subst.
      apply IH in Hk. by rewrite Hb, Hk.
Qed.

Lemma mapM_Ok_length f l k : mapM f l = Ok k -> length k = length l.
Proof. intros H%mapM_Ok_Forall2. symmetry. by eapply Forall2_length. Qed.

Lemma mapM_total f l :
  (forall a, a ∈ l -> is_Ok (f a)) -> is_Ok (mapM f l).
Proof.
  induction l as [|a l IH]; intros H; simpl.
  - by eexists.
  - destruct (H a) as [b Hb]; [left|].
    destruct IH as [k Hk]; [intros; apply H; by right|].
    rewrite Hb, Hk. by eexists.
Qed.

Lemma mapM_Ok_or_Raise f l e :
  (forall a, a ∈ l -> is_Ok (f a) \/ f a = Raise e) ->
  is_Ok (mapM f l) \/ mapM f l = Raise e.
Proof.
  induction l as [|a l IH]; intros H; simpl.
  - left. by eexists.
  - destruct (H a) as [[b ->]| ->]; [left| |by right]. simpl.
    destruct IH as [[k ->]| ->]; [intros; apply H; by right| |by right].
    left. by eexists.
Qed.

Lemma mapM_Raise_inv f l e :
  mapM f l = Raise e -> exists a, a ∈ l /\ f a = Raise e.
Proof.
  induction l as [|a l IH]; simpl; [discriminate|].
  destruct (f a) as [b|e'] eqn:Hb; simpl.
  - destruct (mapM f l) as [k|e'']; simpl; [discriminate|].
    intros [= ->]. destruct IH as (a' & ? & ?); [done|].
    exists a'. split; [by right | done].
  - intros [= ->]. exists a. split; [left | done].
Qed.
End mapM_result.

(** ** Python list primitives *)

Lemma py_getitem_nat {A} (l : list A) (i : nat) :
  py_getitem l (Z.of_nat i) =
    match l !! i with Some a => Ok a | None => Raise IndexError end.
Proof.
  unfold py_getitem.
  destruct (Z.ltb_spec (Z.of_nat i) 0) as [|_]; [lia|].
  destruct (Z.ltb_spec (Z.of_nat i) 0) as [|_]; [lia|].
  by rewrite Nat2Z.id.
Qed.

Lemma py_getitem_succ {A} (l : list A) (i : nat) :
  py_getitem l (Z.of_nat i + 1) =
    match l !! S i with Some a => Ok a | None => Raise IndexError end.
Proof.
  replace (Z.of_nat i + 1)%Z with (Z.of_nat (S i)) by lia.
  apply py_getitem_nat.
Qed.

Lemma py_slice_to_nonneg {A} (l : list A) (k : nat) :
  py_slice_to l (Z.of_nat k) = take k l.
Proof.
  unfold py_slice_to.
  destruct (Z.ltb_spec (Z.of_nat k) 0) as [|_]; [lia|].
  by rewrite Nat2Z.id.
Qed.

Lemma py_slice_to_sublist {A} (l : list A) (k : Z) a :
  a ∈ py_slice_to l k -> a ∈ l.
Proof.
  unfold py_slice_to. destruct (k <? 0)%Z; apply subseteq_take.
Qed.

Lemma enumerate_lookup {A} (l : list A) (i : nat) :
  enumerate l !! i = (fun a => (i, a)) <$> l !! i.
Proof. unfold enumerate. apply list_lookup_imap. Qed.

Lemma enumerate_length {A} (l : list A) : length (enumerate l) = length l.
Proof. unfold enumerate. apply length_imap. Qed.
(** ** Binary64 rounding *)

(** *** Powers of two *)

Lemma pow2_pos (e : Z) : (0 < pow2 e)%Q.
Proof. unfold pow2. by apply Qpower_0_lt. Qed.

Lemma pow2_le (e1 e2 : Z) : (e1 <= e2)%Z -> (pow2 e1 <= pow2 e2)%Q.
Proof. intros H. unfold pow2. apply Qpower_le_compat_l; [done|]. discriminate. Qed.

Lemma pow2_lt (e1 e2 : Z) : (e1 < e2)%Z -> (pow2 e1 < pow2 e2)%Q.
Proof. intros H. unfold pow2. apply Qpower_lt_compat_l; [done|]. reflexivity. Qed.

Lemma pow2_plus (e1 e2 : Z) : (pow2 (e1 + e2) == pow2 e1 * pow2 e2)%Q.
Proof. unfold pow2. apply Qpower_plus. discriminate. Qed.

Lemma pow2_nonneg_inject (e : Z) : (0 <= e)%Z -> (pow2 e == inject_Z (2 ^ e))%Q.
Proof. intros H. unfold pow2. by rewrite Zpower_Qpower. Qed.

(** *** Rounding to the nearest integer, ties to even *)

Lemma rne_cases (t : Q) : rne t = Qfloor t \/ rne t = (Qfloor t + 1)%Z.
Proof.
  unfold rne. destruct (_ ?= _)%Q; [destruct (Z.even _)|..]; auto.
Qed.

Lemma Qfloor_bounds (t : Q) :
  (inject_Z (Qfloor t) <= t)%Q /\ (t < inject_Z (Qfloor t) + 1)%Q.
Proof.
  split; [apply Qfloor_le|].
  pose proof (Qlt_floor t) as H. rewrite inject_Z_plus in H. exact H.
Qed.

Lemma rne_near (t : Q) :
  (t - (1 # 2) <= inject_Z (rne t))%Q /\ (inject_Z (rne t) <= t + (1 # 2))%Q.
Proof.
  destruct (Qfloor_bounds t) as [Hlo Hhi]. unfold rne.
  destruct (t - inject_Z (Qfloor t) ?= 1 # 2)%Q eqn:Hc.
  - apply Qeq_alt in Hc.
    destruct (Z.even (Qfloor t)); rewrite ?inject_Z_plus;
      change (inject_Z 1) with 1%Q; split; lra.
  - apply Qlt_alt in Hc. split; lra.
  - apply Qgt_alt in Hc. rewrite inject_Z_plus.
    change (inject_Z 1) with 1%Q. split; lra.
Qed.

Lemma rne_mono (a b : Q) : (a <= b)%Q -> (rne a <= rne b)%Z.
Proof.
  intros Hab.
  destruct (Z.le_gt_cases (rne a) (rne b)) as [|Hgt]; [done|]. exfalso.
  pose proof (Qfloor_resp_le _ _ Hab) as Hfl.
  destruct (rne_near a) as [_ Ha]. destruct (rne_near b) as [Hb _].
  assert (inject_Z (rne b) + 1 <= inject_Z (rne a))%Q as Hstep.
  { rewrite <- (inject_Z_plus _ 1), <- Zle_Qle. lia. }
  assert (a == b)%Q as Heq by lra.
  assert (Qfloor a = Qfloor b) as Hfeq by (apply Qfloor_comp; exact Heq).
  assert (inject_Z (rne a) == a + (1 # 2))%Q as Hra by lra.
  assert (inject_Z (rne b) == b - (1 # 2))%Q as Hrb by lra.
  destruct (Qfloor_bounds a) as [Hlo Hhi].
  unfold rne in Hgt, Hra, Hrb. rewrite <- Hfeq in Hgt, Hrb.
  assert ((b - inject_Z (Qfloor a) ?= 1 # 2)%Q
          = (a - inject_Z (Qfloor a) ?= 1 # 2)%Q) as Hcmp.
  { apply Qcompare_comp; [|reflexivity].
    apply Qplus_comp; [symmetry; exact Heq | reflexivity]. }
  rewrite Hcmp in Hgt, Hrb.
  destruct (a - inject_Z (Qfloor a) ?= 1 # 2)%Q; [|lia..].
  destruct (Z.even (Qfloor a)); lia.
Qed.

Lemma rne_inject_Z (z : Z) : rne (inject_Z z) = z.
Proof.
  unfold rne. rewrite Qfloor_Z.
  assert ((inject_Z z - inject_Z z ?= 1 # 2)%Q = Lt) as ->; [|done].
  apply (proj1 (Qlt_alt _ _)). lra.
Qed.

(** *** The binade of a rational *)

Lemma ilog2_spec (q : Q) :
  ~ (q == 0)%Q ->
  (pow2 (ilog2 q) <= Qabs q)%Q /\ (Qabs q < pow2 (ilog2 q + 1))%Q.
Proof.
  intros Hq. destruct q as [n d].
  assert (n <> 0)%Z as Hn.
  { intros ->. apply Hq. reflexivity. }
  unfold ilog2. cbn [Qnum Qden Qabs].
  set (ln := Z.log2 (Z.abs n)). set (ld := Z.log2 (Z.pos d)).
  assert (0 < Z.abs n)%Z as Hnpos by lia.
  pose proof (Z.log2_spec _ Hnpos) as [Hn1 Hn2]. fold ln in Hn1, Hn2.
  pose proof (Z.log2_spec (Z.pos d) ltac:(lia)) as [Hd1 Hd2].
  fold ld in Hd1, Hd2.
  pose proof (Z.log2_nonneg (Z.abs n)) as Hln. fold ln in Hln.
  pose proof (Z.log2_nonneg (Z.pos d)) as Hld. fold ld in Hld.
  set (x := inject_Z (Z.abs n)). set (y := inject_Z (Z.pos d)).
  assert (Z.abs n # d == x / y)%Q as Habs by apply Qmake_Qdiv.
  assert (pow2 ln <= x)%Q as HA1.
  { rewrite pow2_nonneg_inject by done. unfold x. by rewrite <- Zle_Qle. }
  assert (x < 2 * pow2 ln)%Q as HA2.
  { unfold x. rewrite (pow2_nonneg_inject ln) by done.
    change 2%Q with (inject_Z 2). rewrite <- inject_Z_mult, <- Zlt_Qlt.
    rewrite Z.pow_succ_r in Hn2 by done. lia. }
  assert (pow2 ld <= y)%Q as HB1.
  { rewrite pow2_nonneg_inject by done. unfold y. by rewrite <- Zle_Qle. }
  assert (y < 2 * pow2 ld)%Q as HB2.
  { unfold y. rewrite (pow2_nonneg_inject ld) by done.
    change 2%Q with (inject_Z 2). rewrite <- inject_Z_mult, <- Zlt_Qlt.
    rewrite Z.pow_succ_r in Hd2 by done. lia. }
  pose proof (pow2_pos ln) as HApos. pose proof (pow2_pos ld) as HBpos.
  assert (0 < y)%Q as Hy by lra.
  assert (forall k, pow2 (ln - ld + k) * pow2 ld == pow2 ln * pow2 k)%Q as Hshift.
  { intros k. rewrite <- !pow2_plus. by replace (ln - ld + k + ld)%Z with (ln + k)%Z by lia. }
  assert (pow2 (ln - ld + 1) * pow2 ld == 2 * pow2 ln)%Q as Hup.
  { rewrite Hshift. change (pow2 1) with 2%Q. ring. }
  assert (pow2 (ln - ld - 1) * pow2 ld * 2 == pow2 ln)%Q as Hdown.
  { replace (ln - ld - 1)%Z with (ln - ld + -1)%Z by lia.
    rewrite Hshift. change (pow2 (-1)) with (1 # 2)%Q. ring. }
  pose proof (pow2_pos (ln - ld + 1)) as Hp1.
  pose proof (pow2_pos (ln - ld - 1)) as Hp2.
  assert (x / y < pow2 (ln - ld + 1))%Q as Hupper.
  { apply Qlt_shift_div_r; [done|]. nra. }
  assert (pow2 (ln - ld - 1) <= x / y)%Q as Hlower.
  { apply Qle_shift_div_l; [done|]. nra. }
  destruct (Qle_bool (pow2 (ln - ld)) (Z.abs n # d)) eqn:Htest.
  - apply Qle_bool_iff in Htest. split; [done|]. by rewrite Habs.
  - split; [by rewrite Habs|].
    replace (ln - ld - 1 + 1)%Z with (ln - ld)%Z by lia.
    apply Qnot_le_lt. rewrite <- Qle_bool_iff. congruence.
Qed.

(** *** The exponent of the nearest double *)

Lemma float_exponent_ge (q : Q) : (-1074 <= float_exponent q)%Z.
Proof. unfold float_exponent. destruct (_ =? _)%Z; lia. Qed.

Lemma Qnum_zero (q : Q) : Qnum q = 0%Z -> (q == 0)%Q.
Proof. destruct q as [n d]. simpl. intros ->. reflexivity. Qed.

Lemma Qnum_nonzero (q : Q) : Qnum q <> 0%Z -> ~ (q == 0)%Q.
Proof.
  destruct q as [n d]. simpl. intros Hn Hq. apply Hn.
  unfold Qeq in Hq. simpl in Hq. lia.
Qed.

Lemma float_exponent_bound (q : Q) : (Qabs q < pow2 (float_exponent q + 53))%Q.
Proof.
  unfold float_exponent. destruct (Z.eqb_spec (Qnum q) 0) as [Hz|Hnz].
  - rewrite (Qnum_zero q Hz). apply pow2_pos.
  - destruct (ilog2_spec q (Qnum_nonzero q Hnz)) as [_ Hhi].
    eapply Qlt_le_trans; [exact Hhi|]. apply pow2_le. lia.
Qed.

Lemma float_exponent_normal (q : Q) :
  (-1074 < float_exponent q)%Z -> (pow2 (float_exponent q + 52) <= Qabs q)%Q.
Proof.
  unfold float_exponent. destruct (Z.eqb_spec (Qnum q) 0) as [Hz|Hnz]; [lia|].
  intros He. destruct (ilog2_spec q (Qnum_nonzero q Hnz)) as [Hlo _].
  replace (Z.max (ilog2 q - 52) (-1074) + 52)%Z with (ilog2 q) by lia. done.
Qed.

(** *** Rounding to the nearest double *)

Lemma scaled_le (a b : Q) (e : Z) : (a <= b)%Q -> (a / pow2 e <= b / pow2 e)%Q.
Proof.
  intros H. unfold Qdiv. apply Qmult_le_compat_r; [done|].
  apply Qlt_le_weak, Qinv_lt_0_compat, pow2_pos.
Qed.

Lemma scaled_pow2 (k e : Z) : (pow2 (e + k) / pow2 e == pow2 k)%Q.
Proof.
  rewrite pow2_plus. field. pose proof (pow2_pos e). lra.
Qed.

Lemma rne_pow2 (k : Z) (t : Q) :
  (0 <= k)%Z -> (pow2 k <= t)%Q -> (2 ^ k <= rne t)%Z.
Proof.
  intros Hk Ht. rewrite <- (rne_inject_Z (2 ^ k)). apply rne_mono.
  by rewrite <- pow2_nonneg_inject.
Qed.

Lemma rne_pow2_upper (k : Z) (t : Q) :
  (0 <= k)%Z -> (t <= pow2 k)%Q -> (rne t <= 2 ^ k)%Z.
Proof.
  intros Hk Ht. rewrite <- (rne_inject_Z (2 ^ k)). apply rne_mono.
  by rewrite <- pow2_nonneg_inject.
Qed.

Lemma rne_pow2_neg (k : Z) (t : Q) :
  (0 <= k)%Z -> (t <= - pow2 k)%Q -> (rne t <= - 2 ^ k)%Z.
Proof.
  intros Hk Ht. rewrite <- (rne_inject_Z (- 2 ^ k)). apply rne_mono.
  rewrite inject_Z_opp, <- pow2_nonneg_inject; done.
Qed.

Lemma rne_pow2_lower (k : Z) (t : Q) :
  (0 <= k)%Z -> (- pow2 k <= t)%Q -> (- 2 ^ k <= rne t)%Z.
Proof.
  intros Hk Ht. rewrite <- (rne_inject_Z (- 2 ^ k)). apply rne_mono.
  rewrite inject_Z_opp, <- pow2_nonneg_inject; done.
Qed.

Lemma Qabs_bounds (q b : Q) : (Qabs q <= b)%Q -> (- b <= q)%Q /\ (q <= b)%Q.
Proof. intros H. by apply Qabs_Qle_condition. Qed.

Lemma unscale_le (z : Z) (k e : Z) :
  (0 <= k)%Z -> (z <= 2 ^ k)%Z -> (inject_Z z * pow2 e <= pow2 (e + k))%Q.
Proof.
  intros Hk Hz. rewrite pow2_plus, (pow2_nonneg_inject k) by done.
  rewrite (Qmult_comm (pow2 e)). apply Qmult_le_compat_r.
  - by rewrite <- Zle_Qle.
  - apply Qlt_le_weak, pow2_pos.
Qed.

Lemma unscale_ge (z : Z) (k e : Z) :
  (0 <= k)%Z -> (2 ^ k <= z)%Z -> (pow2 (e + k) <= inject_Z z * pow2 e)%Q.
Proof.
  intros Hk Hz. rewrite pow2_plus, (pow2_nonneg_inject k) by done.
  rewrite (Qmult_comm (pow2 e)). apply Qmult_le_compat_r.
  - by rewrite <- Zle_Qle.
  - apply Qlt_le_weak, pow2_pos.
Qed.

Lemma round64_upper (q : Q) : (round64 q <= pow2 (float_exponent q + 53))%Q.
Proof.
  unfold round64. cbv zeta. apply unscale_le; [lia|].
  apply rne_pow2_upper; [lia|].
  rewrite <- (scaled_pow2 53 (float_exponent q)). apply scaled_le.
  pose proof (float_exponent_bound q) as H.
  apply Qlt_le_weak in H. by apply Qabs_bounds in H as [_ H].
Qed.

Lemma round64_lower (q : Q) : (- pow2 (float_exponent q + 53) <= round64 q)%Q.
Proof.
  unfold round64. cbv zeta.
  assert (- 2 ^ 53 <= rne (q / pow2 (float_exponent q)))%Z as Hz.
  { apply rne_pow2_lower; [lia|].
    rewrite <- (scaled_pow2 53 (float_exponent q)).
    assert (- (pow2 (float_exponent q + 53) / pow2 (float_exponent q))
            == (- pow2 (float_exponent q + 53)) / pow2 (float_exponent q))%Q as ->.
    { field. pose proof (pow2_pos (float_exponent q)). lra. }
    apply scaled_le.
    pose proof (float_exponent_bound q) as H.
    apply Qlt_le_weak in H. by apply Qabs_bounds in H as [H _]. }
  pose proof (unscale_le (- rne (q / pow2 (float_exponent q))) 53
                (float_exponent q) ltac:(lia) ltac:(lia)) as H.
  rewrite inject_Z_opp in H. lra.
Qed.

Lemma round64_normal_pos (q : Q) :
  (-1074 < float_exponent q)%Z -> (0 < q)%Q ->
  (pow2 (float_exponent q + 52) <= round64 q)%Q.
Proof.
  intros He Hq. unfold round64. cbv zeta. apply unscale_ge; [lia|].
  apply rne_pow2; [lia|].
  rewrite <- (scaled_pow2 52 (float_exponent q)). apply scaled_le.
  pose proof (float_exponent_normal q He) as H.
  by rewrite Qabs_pos in H by by apply Qlt_le_weak.
Qed.

Lemma round64_normal_neg (q : Q) :
  (-1074 < float_exponent q)%Z -> (q < 0)%Q ->
  (round64 q <= - pow2 (float_exponent q + 52))%Q.
Proof.
  intros He Hq. unfold round64. cbv zeta.
  assert (rne (q / pow2 (float_exponent q)) <= - 2 ^ 52)%Z as Hz.
  { apply rne_pow2_neg; [lia|].
    rewrite <- (scaled_pow2 52 (float_exponent q)).
    assert (- (pow2 (float_exponent q + 52) / pow2 (float_exponent q))
            == (- pow2 (float_exponent q + 52)) / pow2 (float_exponent q))%Q as ->.
    { field. pose proof (pow2_pos (float_exponent q)). lra. }
    apply scaled_le.
    pose proof (float_exponent_normal q He) as H.
    rewrite Qabs_neg in H by by apply Qlt_le_weak. lra. }
  pose proof (unscale_ge (- rne (q / pow2 (float_exponent q))) 52
                (float_exponent q) ltac:(lia) ltac:(lia)) as H.
  rewrite inject_Z_opp in H. lra.
Qed.

(** Rounding is monotone: the larger number never gets the smaller double. *)
Lemma round64_mono (a b : Q) : (a <= b)%Q -> (round64 a <= round64 b)%Q.
Proof.
  intros Hab.
  destruct (Z.lt_trichotomy (float_exponent a) (float_exponent b))
    as [Hlt|[Heq|Hgt]].
  - pose proof (float_exponent_ge a) as Hge.
    assert (-1074 < float_exponent b)%Z as Hb by lia.
    pose proof (float_exponent_normal b Hb) as Hnb.
    pose proof (float_exponent_bound a) as Hba.
    pose proof (pow2_le (float_exponent a + 53) (float_exponent b + 52)
                  ltac:(lia)) as Hp.
    destruct (Qlt_le_dec 0 b) as [Hpos|Hneg].
    + pose proof (round64_normal_pos b Hb Hpos).
      pose proof (round64_upper a). lra.
    + exfalso. rewrite Qabs_neg in Hnb by done.
      rewrite Qabs_neg in Hba by lra. lra.
  - unfold round64. cbv zeta. rewrite Heq.
    apply Qmult_le_compat_r; [|apply Qlt_le_weak, pow2_pos].
    rewrite <- Zle_Qle. apply rne_mono. by apply scaled_le.
  - pose proof (float_exponent_ge b) as Hge.
    assert (-1074 < float_exponent a)%Z as Ha by lia.
    pose proof (float_exponent_normal a Ha) as Hna.
    pose proof (float_exponent_bound b) as Hbb.
    pose proof (pow2_le (float_exponent b + 53) (float_exponent a + 52)
                  ltac:(lia)) as Hp.
    destruct (Qlt_le_dec a 0) as [Hneg|Hpos].
    + pose proof (round64_normal_neg a Ha Hneg).
      pose proof (round64_lower b). lra.
    + exfalso. rewrite Qabs_pos in Hna by done.
      rewrite Qabs_pos in Hbb by lra. lra.
Qed.

(** *** Floats with infinities, and the numbers of a JSON answer *)

Lemma float_leb_refl (a : pyfloat) : float_leb a a = true.
Proof. destruct a; simpl; [|done..]. apply Qle_bool_iff, Qle_refl. Qed.

Lemma float_leb_trans (a b c : pyfloat) :
  float_leb a b = true -> float_leb b c = true -> float_leb a c = true.
Proof.
  destruct a, b, c; simpl; try done.
  rewrite !Qle_bool_iff. apply Qle_trans.
Qed.

Lemma float_leb_total (a b : pyfloat) :
  float_leb a b = false -> float_leb b a = true.
Proof.
  destruct a as [x| |], b as [y| |]; simpl; try done.
  intros H. apply Qle_bool_iff, Qlt_le_weak, Qnot_le_lt.
  rewrite <- Qle_bool_iff. congruence.
Qed.

Lemma to_float_mono (a b : Q) :
  (a <= b)%Q -> float_leb (to_float a) (to_float b) = true.
Proof.
  intros Hab%round64_mono. unfold to_float. cbv zeta.
  pose proof (pow2_pos 1024) as Hpos.
  destruct (Qle_bool (pow2 1024) (round64 a)) eqn:Ha1.
  { apply Qle_bool_iff in Ha1.
    assert (Qle_bool (pow2 1024) (round64 b) = true) as ->; [|done].
    apply Qle_bool_iff. lra. }
  destruct (Qle_bool (round64 a) (- pow2 1024)) eqn:Ha2; [done|].
  destruct (Qle_bool (pow2 1024) (round64 b)) eqn:Hb1; [done|].
  destruct (Qle_bool (round64 b) (- pow2 1024)) eqn:Hb2.
  { apply Qle_bool_iff in Hb2.
    assert (Qle_bool (round64 a) (- pow2 1024) = true); [|congruence].
    apply Qle_bool_iff. lra. }
  simpl. apply Qle_bool_iff. by rewrite !Qred_correct.
Qed.

Lemma float_add_mono_l (a b : pyfloat) (y : Q) :
  float_leb a b = true -> float_leb (float_add a y) (float_add b y) = true.
Proof.
  destruct a as [x| |], b as [z| |]; simpl; try done.
  - intros H%Qle_bool_iff. apply to_float_mono. lra.
  - intros _. by destruct (to_float _).
Qed.

Lemma float_add_mono_r (a : pyfloat) (y y' : Q) :
  (y <= y')%Q -> float_leb (float_add a y) (float_add a y') = true.
Proof.
  intros H. destruct a as [x| |]; simpl; [|done..].
  apply to_float_mono. lra.
Qed.

Lemma float_of_int_mono (z z' : Z) (y y' : Q) :
  (z <= z')%Z -> float_of_int z = Ok y -> float_of_int z' = Ok y' ->
  (y <= y')%Q.
Proof.
  unfold float_of_int. cbv zeta. intros Hz.
  destruct (Qle_bool _ _); [done|]. intros [= <-].
  destruct (Qle_bool _ _); [done|]. intros [= <-].
  rewrite !Qred_correct. apply round64_mono. by rewrite <- Zle_Qle.
Qed.

Lemma py_leb_refl (a : pynum) : py_leb a a = true.
Proof. apply float_leb_refl. Qed.

Lemma py_leb_trans (a b c : pynum) :
  py_leb a b = true -> py_leb b c = true -> py_leb a c = true.
Proof. apply float_leb_trans. Qed.

Lemma py_leb_total (a b : pynum) : py_leb a b = false -> py_leb b a = true.
Proof. apply float_leb_total. Qed.

Lemma py_leb_int (z z' : Z) : py_leb (PyInt z) (PyInt z') = true <-> (z <= z')%Z.
Proof. unfold py_leb. simpl. by rewrite Qle_bool_iff, <- Zle_Qle. Qed.

(** ** compute_distance_matrix *)

Section distance_matrix.
Variable G : Graph.

(** The contract of the graph provider: a shortest-path query returns a
    non-negative length or signals that no path exists. *)
Hypothesis path_length_nonneg :
  forall u v d, shortest_path_length G u v = Ok d -> (0 <= d)%Q.
Hypothesis path_failure_is_no_path :
  forall u v e, shortest_path_length G u v = Raise e -> e = NetworkXNoPath.

Lemma matrix_entry_diagonal i u v : matrix_entry G i u i v = Ok (Finite 0).
Proof. unfold matrix_entry. by rewrite decide_True. Qed.

Lemma matrix_entry_off_diagonal i j u v :
  i ≠ j ->
  matrix_entry G i u j v =
    match shortest_path_length G u v with
    | Ok d => Ok (Finite d)
    | Raise _ => Ok Infinity
    end.
Proof using path_failure_is_no_path.
  intros Hij. unfold matrix_entry. rewrite decide_False by done.
  destruct (shortest_path_length G u v) as [d|e] eqn:Hsp; [done|].
  by rewrite (path_failure_is_no_path _ _ _ Hsp).
Qed.

Lemma matrix_entry_total i u j v : is_Ok (matrix_entry G i u j v).
Proof using path_failure_is_no_path.
  destruct (decide (i = j)) as [->|Hij].
  - rewrite matrix_entry_diagonal. by eexists.
  - rewrite matrix_entry_off_diagonal by done.
    destruct (shortest_path_length G u v); by eexists.
Qed.

Lemma matrix_row_total nodes i u : is_Ok (matrix_row G nodes i u).
Proof using path_failure_is_no_path.
  apply mapM_total. intros [j v] _. apply matrix_entry_total.
Qed.

Lemma matrix_row_lookup nodes i u row j v :
  matrix_row G nodes i u = Ok row ->
  nodes !! j = Some v ->
  exists c, row !! j = Some c /\ matrix_entry G i u j v = Ok c.
Proof.
  intros Hrow%mapM_Ok_Forall2 Hv.
  assert (enumerate nodes !! j = Some (j, v)) as Hjv
    by (by rewrite enumerate_lookup, Hv).
  destruct (Forall2_lookup_l _ _ _ _ _ Hrow Hjv) as (c & Hc & Hentry).
  eauto.
Qed.
End distance_matrix.

(** C7. For a waypoint list whose points all map to graph nodes, over a graph
    whose shortest-path queries return a non-negative length or signal "no
    path", [compute_distance_matrix] returns a matrix with one row per
    waypoint and one entry per waypoint in each row; every diagonal entry is
    exactly [0.0]; an off-diagonal entry is the non-negative path length, or
    the infinite sentinel when the query signalled "no path" (the build
    still succeeds). *)
Theorem compute_distance_matrix_shape (G : Graph) (points : list Coordinate) :
  (forall p, p ∈ points -> is_Ok (nearest_nodes G p.1 p.2)) ->
  (forall u v d, shortest_path_length G u v = Ok d -> (0 <= d)%Q) ->
  (forall u v e, shortest_path_length G u v = Raise e -> e = NetworkXNoPath) ->
  exists nodes m,
    mapM (fun '(lon, lat) => nearest_nodes G lon lat) points = Ok nodes /\
    compute_distance_matrix G points = Ok m /\
    length m = length points /\
    (forall row, row ∈ m -> length row = length points) /\
    (forall i row, m !! i = Some row -> row !! i = Some (Finite 0)) /\
    (forall i j row c u v,
        i ≠ j -> m !! i = Some row -> row !! j = Some c ->
        nodes !! i = Some u -> nodes !! j = Some v ->
        match shortest_path_length G u v with
        | Ok d => c = Finite d /\ (0 <= d)%Q
        | Raise _ => c = Infinity
        end).
Proof.
  intros Hnear Hnonneg Hnopath.
  destruct (mapM_total (fun '(lon, lat) => nearest_nodes G lon lat) points)
    as [nodes Hnodes].
  { intros [lon lat] Hp. apply (Hnear _ Hp). }
  destruct (mapM_total (fun '(i, node_i) => matrix_row G nodes i node_i)
              (enumerate nodes)) as [m Hm].
  { intros [i u] _. by apply matrix_row_total. }
  assert (length nodes = length points) as Hlen by by eapply mapM_Ok_length.
  exists nodes, m. split; [done|].
  split; [unfold compute_distance_matrix; by rewrite Hnodes|].
  pose proof Hm as Hrows%mapM_Ok_Forall2.
  assert (forall i row, m !! i = Some row ->
            exists u, nodes !! i = Some u /\ matrix_row G nodes i u = Ok row)
    as Hrow_of.
  { intros i row Hi.
    destruct (Forall2_lookup_r _ _ _ _ _ Hrows Hi) as ([i' u] & Hiu & Hrow).
    rewrite enumerate_lookup in Hiu.
    destruct (nodes !! i) as [u'|] eqn:Hu; simplify_eq/=. eauto. }
  split; [|split; [|split]].
  - apply mapM_Ok_length in Hm. by rewrite Hm, enumerate_length.
  - intros row (i & Hi)%list_elem_of_lookup.
    destruct (Hrow_of _ _ Hi) as (u & _ & Hrow).
    apply mapM_Ok_length in Hrow. by rewrite Hrow, enumerate_length.
  - intros i row Hi.
    destruct (Hrow_of _ _ Hi) as (u & Hu & Hrow).
    destruct (matrix_row_lookup _ _ _ _ _ _ _ Hrow Hu) as (c & Hc & Hentry).
    rewrite matrix_entry_diagonal in Hentry. by simplify_eq.
  - intros i j row c u v Hij Hi Hc Hu Hv.
    destruct (Hrow_of _ _ Hi) as (u' & Hu' & Hrow). simplify_eq.
    destruct (matrix_row_lookup _ _ _ _ _ _ _ Hrow Hv) as (c' & Hc' & Hentry).
    simplify_eq.
    rewrite matrix_entry_off_diagonal in Hentry by done.
    destruct (shortest_path_length G u v) as [d|e] eqn:Hsp; simplify_eq; eauto.
Qed.

(** ** get_top_stop_orders: the dict of assignment variables *)

Lemma elem_of_off_diagonal n i j :
  (i, j) ∈ off_diagonal n <-> i < Z.to_nat n /\ j < Z.to_nat n /\ i ≠ j.
Proof.
  unfold off_diagonal, range. rewrite list_elem_of_bind. split.
  - intros (i' & Hin & Hi'%elem_of_seq).
    apply list_elem_of_bind in Hin as (j' & Hin & Hj'%elem_of_seq).
    destruct (decide (i' ≠ j')); [|by apply elem_of_nil in Hin].
    apply list_elem_of_singleton in Hin. simplify_eq. lia.
  - intros (Hi & Hj & Hij). exists i. split; [|apply elem_of_seq; lia].
    apply list_elem_of_bind. exists j. split; [|apply elem_of_seq; lia].
    rewrite decide_True by done. by apply list_elem_of_singleton.
Qed.

Lemma x_vars_lookup_Some n i j v :
  x_vars n !! (i, j) = Some v -> v = X i j /\ (i, j) ∈ off_diagonal n.
Proof.
  unfold x_vars. intros H%elem_of_list_to_map_2.
  apply list_elem_of_fmap in H as ([i' j'] & Heq & Hin). by simplify_eq.
Qed.

Lemma x_vars_lookup_off_diagonal n i j :
  (i, j) ∈ off_diagonal n -> x_vars n !! (i, j) = Some (X i j).
Proof.
  intros Hin. unfold x_vars. apply elem_of_list_to_map_1'.
  - intros v ([i' j'] & Heq & _)%list_elem_of_fmap. by simplify_eq.
  - apply list_elem_of_fmap. by exists (i, j).
Qed.

(** The dict has no key on the diagonal. *)
Lemma x_vars_diagonal n i : x_vars n !! (i, i) = None.
Proof.
  destruct (x_vars n !! (i, i)) as [v|] eqn:Hv; [|done].
  apply x_vars_lookup_Some in Hv as [_ Hin].
  apply elem_of_off_diagonal in Hin. lia.
Qed.

Lemma u_vars_lookup n i : i < Z.to_nat n -> u_vars n !! i = Some (U i).
Proof.
  intros Hi. unfold u_vars. apply elem_of_list_to_map_1'.
  - intros v (i' & Heq & _)%list_elem_of_fmap. by simplify_eq.
  - apply list_elem_of_fmap. exists i. split; [done|]. apply elem_of_seq. lia.
Qed.

(** ** get_top_stop_orders: path reconstruction *)

(** The first test of the inner loop reads [x[0, 0]]. *)
Lemma find_next_first_lookup n sol :
  (1 <= n)%Z -> find_next (x_vars n) sol 0 (range n) = Raise KeyError.
Proof.
  intros Hn. unfold range.
  destruct (Z.to_nat n) as [|k] eqn:Hk; [lia|]. simpl.
  unfold py_dict_get. by rewrite x_vars_diagonal.
Qed.

Lemma follow_edges_KeyError n sol :
  (1 <= n)%Z ->
  follow_edges (x_vars n) sol n (Z.to_nat n) [0%Z] 0 = Raise KeyError.
Proof.
  intros Hn. destruct (Z.to_nat n) as [|k] eqn:Hk; [lia|]. simpl.
  by rewrite find_next_first_lookup.
Qed.

Lemma follow_edges_no_stops x sol n order current :
  (n <= 0)%Z -> follow_edges x sol n (Z.to_nat n) order current = Ok order.
Proof. intros Hn. by replace (Z.to_nat n) with 0 by lia. Qed.

(** With at least one intermediate stop nothing is returned. *)
Lemma get_top_stop_orders_raises cbc dist_matrix num_orders :
  3 <= length dist_matrix ->
  exists e, get_top_stop_orders cbc dist_matrix num_orders = Raise e.
Proof.
  intros HN. unfold get_top_stop_orders.
  set (n := (Z.of_nat (length dist_matrix) - 2)%Z).
  destruct (tsp_objective dist_matrix (x_vars n) n) as [obj|e]; [|by eexists].
  destruct (degree_constraints (x_vars n) n) as [deg|e]; [|by eexists].
  destruct (mtz_constraints (x_vars n) (u_vars n) n) as [mtz|e]; [|by eexists].
  simpl. rewrite follow_edges_KeyError by lia. by eexists.
Qed.

(** With no intermediate stop the single order [0, 1] is returned. *)
Lemma get_top_stop_orders_no_stops cbc row0 row1 num_orders :
  get_top_stop_orders cbc [row0; row1] num_orders
  = Ok (py_slice_to [[0%Z; 1%Z]] num_orders).
Proof. reflexivity. Qed.

(** ** Stop Orders *)

Lemma filter_eq_absent (i : Z) (l : list Z) :
  i ∉ l -> filter (fun v => v = i) l = [].
Proof.
  induction l as [|v l IH]; [done|]. intros Hnot.
  apply not_elem_of_cons in Hnot as [Hne Hnot].
  rewrite filter_cons, decide_False by done. by apply IH.
Qed.

Lemma filter_eq_NoDup_length (i : Z) (l : list Z) :
  NoDup l -> i ∈ l -> length (filter (fun v => v = i) l) = 1.
Proof.
  induction 1 as [|v l Hv Hl IH]; [by intros ?%elem_of_nil|].
  intros Hin. rewrite filter_cons. destruct (decide (v = i)) as [->|Hne].
  - simpl. by rewrite filter_eq_absent.
  - apply IH. by apply elem_of_cons in Hin as [->|].
Qed.

Lemma stop_order_mid_range N mid v :
  mid ≡ₚ seqZ 1 (N - 2) -> v ∈ mid <-> (1 <= v <= N - 2)%Z.
Proof.
  intros ->. rewrite list_elem_of_lookup. split.
  - intros (k & Hk%lookup_seqZ). lia.
  - intros Hv. exists (Z.to_nat (v - 1)). apply lookup_seqZ. lia.
Qed.

Lemma stop_order_length N o :
  (2 <= N)%Z -> is_stop_order N o -> Z.of_nat (length o) = N.
Proof.
  intros HN (mid & -> & Hmid). simpl. rewrite length_app, Hmid, length_seqZ.
  simpl. lia.
Qed.

Lemma stop_order_NoDup N o : (2 <= N)%Z -> is_stop_order N o -> NoDup o.
Proof.
  intros HN (mid & -> & Hmid).
  assert (NoDup mid) by (rewrite Hmid; apply NoDup_seqZ).
  apply NoDup_cons. split.
  - intros [Hin|Hin%list_elem_of_singleton]%elem_of_app; [|lia].
    apply (stop_order_mid_range N) in Hin; [lia|done].
  - apply NoDup_app. split; [done|]. split; [|apply NoDup_singleton].
    intros v Hv ->%list_elem_of_singleton.
    apply (stop_order_mid_range N) in Hv; [lia|done].
Qed.

(** The three parts of the shape, as the specification words them. *)
Lemma stop_order_shape N o :
  (2 <= N)%Z -> is_stop_order N o ->
  head o = Some 0%Z /\
  last o = Some (N - 1)%Z /\
  forall i, (1 <= i <= N - 2)%Z -> length (filter (fun v => v = i) o) = 1.
Proof.
  intros HN Ho. pose proof (stop_order_NoDup _ _ HN Ho) as Hnd.
  destruct Ho as (mid & -> & Hmid). split; [done|]. split.
  - by rewrite app_comm_cons, last_snoc.
  - intros i Hi. apply filter_eq_NoDup_length; [done|].
    right. apply elem_of_app. left. by apply (stop_order_mid_range N).
Qed.

(** C1. For a cost matrix with three rows or more (one intermediate stop
    or more) [get_top_stop_orders] returns no Stop Order at all: it raises,
    whatever the solver answers, so no list it returns has a member. Only
    for two rows does it return, and the one order then returned, [0, 1],
    has the shape of a Stop Order. *)
Theorem get_top_stop_orders_returns_no_stop_order
    (cbc : LpProblem -> LpSolution) (dist_matrix : list (list cost))
    (num_orders : Z) :
  3 <= length dist_matrix ->
  (exists e, get_top_stop_orders cbc dist_matrix num_orders = Raise e) /\
  (forall orders o,
      get_top_stop_orders cbc dist_matrix num_orders = Ok orders ->
      o ∈ orders -> False) /\
  (forall row0 row1 orders o,
      get_top_stop_orders cbc [row0; row1] num_orders = Ok orders ->
      o ∈ orders ->
      o = [0; 1]%Z /\ is_stop_order 2 o).
Proof.
  intros HN.
  destruct (get_top_stop_orders_raises cbc dist_matrix num_orders HN)
    as [e He].
  split; [by exists e|]. split.
  - intros orders o Hget _. congruence.
  - intros row0 row1 orders o Hget Ho.
    rewrite get_top_stop_orders_no_stops in Hget. injection Hget as <-.
    apply py_slice_to_sublist, list_elem_of_singleton in Ho as ->.
    split; [done|]. by exists [].
Qed.


(** ** get_top_stop_orders: alternates *)

Lemma swap_adjacent_Ok order i a b :
  order !! i = Some b -> order !! S i = Some a ->
  swap_adjacent order i = Ok (<[S i := b]> (<[i := a]> order)).
Proof.
  intros Hb Ha. unfold swap_adjacent.
  by rewrite py_getitem_succ, Ha, py_getitem_nat, Hb.
Qed.

Lemma swap_adjacent_inv order i alt :
  swap_adjacent order i = Ok alt ->
  exists a b, order !! i = Some b /\ order !! S i = Some a /\
              alt = <[S i := b]> (<[i := a]> order).
Proof.
  unfold swap_adjacent. rewrite py_getitem_succ, py_getitem_nat.
  destruct (order !! S i) as [a|]; [|discriminate].
  destruct (order !! i) as [b|]; [|discriminate]. simpl.
  intros [= <-]. eauto.
Qed.

Lemma swap_adjacent_spec order i alt :
  swap_adjacent order i = Ok alt -> is_adjacent_swap i order alt.
Proof.
  intros (a & b & Hb & Ha & ->)%swap_adjacent_inv.
  pose proof (lookup_lt_Some _ _ _ Hb). pose proof (lookup_lt_Some _ _ _ Ha).
  repeat split.
  - by rewrite !length_insert.
  - rewrite list_lookup_insert_ne by lia.
    by rewrite list_lookup_insert_eq.
  - rewrite list_lookup_insert_eq; [done|]. by rewrite length_insert.
  - intros p Hp1 Hp2. by rewrite !list_lookup_insert_ne.
Qed.

(** Exchanging two neighbours permutes the list. *)
Lemma swap_neighbours_Permutation (l : list Z) i a b :
  l !! i = Some b -> l !! S i = Some a ->
  <[S i := b]> (<[i := a]> l) ≡ₚ l.
Proof.
  revert l. induction i as [|i IH]; intros [|c [|d l]] Hb Ha; simplify_eq/=.
  - apply perm_swap.
  - f_equiv. by apply (IH (d :: l)).
Qed.

(** A swap of two interior neighbours of a Stop Order is a Stop Order. *)
Lemma swap_adjacent_stop_order N order i alt :
  (2 <= N)%Z -> is_stop_order N order ->
  1 <= i -> (Z.of_nat i + 1 <= N - 2)%Z ->
  swap_adjacent order i = Ok alt -> is_stop_order N alt.
Proof.
  intros HN (mid & -> & Hmid) Hi1 Hi2 (a & b & Hb & Ha & ->)%swap_adjacent_inv.
  assert (length mid = Z.to_nat (N - 2)) as Hlen
    by by rewrite Hmid, length_seqZ.
  destruct i as [|i]; [lia|]. simpl in Hb, Ha. simpl.
  rewrite lookup_app_l in Hb by lia. rewrite lookup_app_l in Ha by lia.
  exists (<[S i := b]> (<[i := a]> mid)). split.
  - f_equal. rewrite insert_app_l by lia.
    rewrite insert_app_l by (rewrite length_insert; lia). done.
  - by rewrite swap_neighbours_Permutation.
Qed.

Lemma range_from_lookup lo hi k i :
  range_from lo hi !! k = Some i <-> i = lo + k /\ lo + k < Z.to_nat hi.
Proof. unfold range_from. rewrite lookup_seq. lia. Qed.

(** The alternates, one per value of the loop variable. *)
Lemma candidate_orders_inv order n num_orders orders :
  candidate_orders order n num_orders = Ok orders ->
  exists alts,
    Forall2 (fun i alt => swap_adjacent order i = Ok alt)
            (range_from 1 (Z.min n 4)) alts /\
    orders = py_slice_to (order :: alts) num_orders.
Proof.
  unfold candidate_orders.
  intros (alts & Halts%mapM_Ok_Forall2 & [= <-])%bind_Ok_inv. eauto.
Qed.

Lemma candidate_orders_total order n num_orders :
  (Z.min n 4 < Z.of_nat (length order))%Z ->
  is_Ok (candidate_orders order n num_orders).
Proof.
  intros Hlen. unfold candidate_orders.
  destruct (mapM_total (swap_adjacent order) (range_from 1 (Z.min n 4)))
    as [alts Halts].
  - intros i (k & [-> Hk]%range_from_lookup)%list_elem_of_lookup.
    destruct (lookup_lt_is_Some_2 order (1 + k)) as [b Hb]; [lia|].
    destruct (lookup_lt_is_Some_2 order (S (1 + k))) as [a Ha]; [lia|].
    rewrite (swap_adjacent_Ok _ _ _ _ Hb Ha). by eexists.
  - rewrite Halts. by eexists.
Qed.

(** Lines 73-79 keep the Stop Order shape. *)
Lemma candidate_orders_stop_orders N order num_orders orders o :
  (2 <= N)%Z -> is_stop_order N order ->
  candidate_orders order (N - 2) num_orders = Ok orders ->
  o ∈ orders -> is_stop_order N o.
Proof.
  intros HN Hso (alts & Halts & ->)%candidate_orders_inv
    [->|Ho]%py_slice_to_sublist%elem_of_cons; [done|].
  apply list_elem_of_lookup in Ho as [k Hk].
  destruct (Forall2_lookup_r _ _ _ _ _ Halts Hk) as (i & Hi & Hswap).
  apply range_from_lookup in Hi as [-> Hi].
  eapply (swap_adjacent_stop_order N order (1 + k)); [done..|lia|lia|done].
Qed.

Lemma get_top_stop_orders_candidates cbc dist_matrix num_orders orders :
  get_top_stop_orders cbc dist_matrix num_orders = Ok orders ->
  let N := Z.of_nat (length dist_matrix) in
  exists visited,
    candidate_orders (visited ++ [(N - 1)%Z]) (N - 2) num_orders = Ok orders.
Proof.
  unfold get_top_stop_orders.
  intros (obj & _ & (deg & _ & (mtz & _ & H)%bind_Ok_inv)%bind_Ok_inv)%bind_Ok_inv.
  simpl in H. apply bind_Ok_inv in H as (visited & _ & H). eauto.
Qed.

(** Two alternates of a duplicate-free order, made by swaps at different
    places, differ; and each differs from the order itself. *)
Lemma adjacent_swap_differs order i alt :
  NoDup order -> S i < length order ->
  is_adjacent_swap i order alt -> alt ≠ order.
Proof.
  intros Hnd Hi (_ & Hi1 & _ & _) ->.
  destruct (lookup_lt_is_Some_2 order i) as [b Hb]; [lia|].
  rewrite Hb in Hi1. symmetry in Hi1.
  pose proof (NoDup_lookup _ _ _ _ Hnd Hb Hi1). lia.
Qed.

Lemma adjacent_swaps_differ order i j alt_i alt_j :
  NoDup order -> S i < length order -> i < j ->
  is_adjacent_swap i order alt_i -> is_adjacent_swap j order alt_j ->
  alt_i ≠ alt_j.
Proof.
  intros Hnd Hi Hij (_ & Hi1 & _ & _) (_ & _ & _ & Hj) ->.
  rewrite Hj in Hi1 by lia.
  destruct (lookup_lt_is_Some_2 order i) as [b Hb]; [lia|].
  rewrite Hb in Hi1. symmetry in Hi1.
  pose proof (NoDup_lookup _ _ _ _ Hnd Hb Hi1). lia.
Qed.

(** C2, as amended. For [n >= 2] intermediate stops and [num_orders = 5],
    the candidate list that lines 73-79 build from a best ordering that is a
    Stop Order has length exactly [min(num_orders, min(n, 4))]; it starts
    with that ordering, its members are pairwise distinct, and the [k]-th
    alternate is the ordering with positions [k] and [k + 1] exchanged, both
    interior ([1 <= k], [k + 1 <= n]), so that it is a Stop Order again. *)
Theorem candidate_orders_adjacent_swaps (order : list Z) (n : Z) :
  (2 <= n)%Z ->
  is_stop_order (n + 2) order ->
  exists alts,
    candidate_orders order n 5 = Ok (order :: alts) /\
    Z.of_nat (length (order :: alts)) = Z.min 5 (Z.min n 4) /\
    NoDup (order :: alts) /\
    forall k alt, alts !! k = Some alt ->
      (1 <= S k /\ (Z.of_nat (S k) + 1 <= n)%Z) /\
      is_adjacent_swap (S k) order alt /\
      alt ≠ order /\
      is_stop_order (n + 2) alt.
Proof.
  intros Hn Hso.
  assert (Z.of_nat (length order) = n + 2)%Z as Hlen
    by (apply stop_order_length; [lia|done]).
  assert (NoDup order) as Hnd by (eapply stop_order_NoDup; [|done]; lia).
  destruct (candidate_orders_total order n 5) as [orders Horders]; [lia|].
  destruct (candidate_orders_inv _ _ _ _ Horders) as (alts & Halts & ->).
  assert (length alts = Z.to_nat (Z.min n 4) - 1) as Hlen_alts.
  { apply Forall2_length in Halts. rewrite <- Halts.
    unfold range_from. by rewrite length_seq. }
  assert (forall k alt, alts !! k = Some alt ->
            S k < Z.to_nat (Z.min n 4) /\ swap_adjacent order (S k) = Ok alt)
    as Halt.
  { intros k alt Hk.
    destruct (Forall2_lookup_r _ _ _ _ _ Halts Hk) as (i & Hi & Hswap).
    apply range_from_lookup in Hi as [-> Hi]. done. }
  exists alts. split; [|split; [|split]].
  - rewrite Horders. f_equal. change 5%Z with (Z.of_nat 5).
    rewrite py_slice_to_nonneg. apply take_ge. simpl. lia.
  - simpl. lia.
  - apply NoDup_cons. split.
    + intros (k & Hk)%list_elem_of_lookup.
      destruct (Halt _ _ Hk) as [Hk' Hswap%swap_adjacent_spec].
      eapply adjacent_swap_differs; [done| |done|done]. lia.
    + apply NoDup_alt. intros k1 k2 alt Hk1 Hk2.
      destruct (Halt _ _ Hk1) as [Hk1' Hswap1%swap_adjacent_spec].
      destruct (Halt _ _ Hk2) as [Hk2' Hswap2%swap_adjacent_spec].
      destruct (Nat.lt_trichotomy k1 k2) as [Hlt|[->|Hlt]]; [|done|].
      * exfalso.
        eapply (adjacent_swaps_differ order (S k1) (S k2)); [done| | |done..];
          lia.
      * exfalso.
        eapply (adjacent_swaps_differ order (S k2) (S k1)); [done| | |done..];
          lia.
  - intros k alt Hk. destruct (Halt _ _ Hk) as [Hk' Hswap].
    split; [lia|]. split; [by apply swap_adjacent_spec|]. split.
    + eapply adjacent_swap_differs; [done| |by apply swap_adjacent_spec]. lia.
    + eapply (swap_adjacent_stop_order (n + 2) order (S k)); [lia|done|lia|lia|done].
Qed.

(** ** The integer program of lines 45-60 *)

Lemma mapM_Ok_fmap {A B} (f : A -> result B) (g : A -> B) (l : list A) :
  (forall a, a ∈ l -> f a = Ok (g a)) -> mapM f l = Ok (g <$> l).
Proof.
  intros Hf. apply mapM_Ok_Forall2, Forall2_fmap_r, Forall_Forall2_diag.
  by apply Forall_forall.
Qed.

Lemma lp_sum_x_vars n (keys : list (nat * nat)) :
  (forall k, k ∈ keys -> k ∈ off_diagonal n) ->
  lp_sum (x_vars n) keys = Ok ((fun '(i, j) => (1%Z, X i j)) <$> keys).
Proof.
  intros Hkeys. unfold lp_sum. apply mapM_Ok_fmap. intros [i j] Hk.
  unfold py_dict_get. by rewrite x_vars_lookup_off_diagonal by by apply Hkeys.
Qed.

Lemma elem_of_range n i : i ∈ range n <-> i < Z.to_nat n.
Proof. unfold range. rewrite elem_of_seq. lia. Qed.

(** Building the constraints never fails, and yields these lists. *)
Lemma degree_constraints_x_vars n :
  degree_constraints (x_vars n) n
  = Ok (concat ((fun i => [out_degree n i; in_degree n i]) <$> range n)).
Proof.
  unfold degree_constraints.
  rewrite (mapM_Ok_fmap _ (fun i => [out_degree n i; in_degree n i])); [done|].
  intros i Hi%elem_of_range.
  rewrite !lp_sum_x_vars.
  - simpl. unfold out_degree, in_degree.
    by rewrite <- !list_fmap_compose.
  - intros [j i'] (j' & [= -> ->] & [Hne Hj%elem_of_range]%list_elem_of_filter)%list_elem_of_fmap.
    apply elem_of_off_diagonal. lia.
  - intros [i' j] (j' & [= -> ->] & [Hne Hj%elem_of_range]%list_elem_of_filter)%list_elem_of_fmap.
    apply elem_of_off_diagonal. lia.
Qed.

Lemma mtz_constraints_vars n :
  mtz_constraints (x_vars n) (u_vars n) n
  = Ok ((fun '(i, j) => ordering n i j) <$> off_diagonal n).
Proof.
  unfold mtz_constraints. apply mapM_Ok_fmap.
  intros [i j] Hij. pose proof Hij as (Hi & Hj & _)%elem_of_off_diagonal.
  unfold py_dict_get.
  by rewrite !u_vars_lookup, x_vars_lookup_off_diagonal by done.
Qed.

Lemma elem_of_concat {A} (x : A) (ls : list (list A)) :
  x ∈ concat ls <-> exists l, x ∈ l /\ l ∈ ls.
Proof.
  rewrite list_elem_of_In, in_concat. split.
  - intros (l & Hl & Hx). exists l. by rewrite !list_elem_of_In.
  - intros (l & Hx & Hl). exists l. by rewrite <- !list_elem_of_In.
Qed.

(** A sum of binary variables that equals one has a variable equal to one. *)
Lemma unit_sum_has_one (val : lpvar -> Z) (var : nat -> lpvar) (js : list nat) :
  (forall j, (0 <= val (var j) <= 1)%Z) ->
  lp_eval val ((fun j => (1%Z, var j)) <$> js) = 1%Z ->
  exists j, j ∈ js /\ val (var j) = 1%Z.
Proof.
  intros Hbin. induction js as [|j js IH]; [done|].
  intros Hsum.
  change (1 * val (var j)
          + lp_eval val ((fun j => (1%Z, var j)) <$> js) = 1)%Z in Hsum.
  destruct (decide (val (var j) = 1%Z)) as [Hj|Hj].
  - exists j. split; [left | done].
  - destruct IH as (j' & Hj' & Hval); [specialize (Hbin j); lia|].
    exists j'. split; [by right | done].
Qed.

(** Along a chosen edge the position variable grows. *)
Lemma chosen_edge_increases n val i :
  feasible n (concat ((fun i => [out_degree n i; in_degree n i]) <$> range n)
              ++ ((fun '(i, j) => ordering n i j) <$> off_diagonal n)) val ->
  i < Z.to_nat n ->
  exists j, j < Z.to_nat n /\ (val (U i) + 1 <= val (U j))%Z.
Proof.
  intros [[Hx Hu] [Hdeg Hmtz]%Forall_app] Hi.
  assert (satisfies val (out_degree n i)) as Hout.
  { eapply Forall_forall; [exact Hdeg|].
    apply elem_of_concat. exists [out_degree n i; in_degree n i].
    split; [left|]. apply list_elem_of_fmap. exists i.
    split; [done | by apply elem_of_range]. }
  destruct (unit_sum_has_one val (X i) _ (Hx i) Hout)
    as (j & [Hne Hj%elem_of_range]%list_elem_of_filter & Hone).
  assert (satisfies val (ordering n i j)) as Hord.
  { eapply Forall_forall; [exact Hmtz|].
    apply list_elem_of_fmap. exists (i, j). split; [done|].
    apply elem_of_off_diagonal. lia. }
  exists j. split; [done|].
  change (1 * val (U i) + (-1 * val (U j) + (n * val (X i j) + 0)) <= n - 1)%Z
    in Hord.
  rewrite Hone in Hord. lia.
Qed.

(** For one stop or more the program has no feasible point: every stop must
    have a successor, each successor has a larger position, and positions
    are bounded by [n]. *)
Lemma tsp_program_infeasible n deg mtz val :
  (1 <= n)%Z ->
  degree_constraints (x_vars n) n = Ok deg ->
  mtz_constraints (x_vars n) (u_vars n) n = Ok mtz ->
  ~ feasible n (deg ++ mtz) val.
Proof.
  rewrite degree_constraints_x_vars, mtz_constraints_vars.
  intros Hn [= <-] [= <-] Hfeas.
  assert (forall k : nat,
            exists i, i < Z.to_nat n /\ (1 + Z.of_nat k <= val (U i))%Z) as Hchain.
  { induction k as [|k (i & Hi & Hk)].
    - exists 0. split; [lia|]. destruct Hfeas as [[_ Hu] _].
      specialize (Hu 0). lia.
    - destruct (chosen_edge_increases n val i Hfeas Hi)
        as (j & Hj & Hstep).
      exists j. split; [done | lia]. }
  destruct (Hchain (Z.to_nat n)) as (i & _ & Hi).
  destruct Hfeas as [[_ Hu] _]. specialize (Hu i). lia.
Qed.

(** ** No result with one stop or more *)

(** On a square matrix every term of line 51 finds its matrix entry and its
    variable. *)
Lemma tsp_objective_term dist_matrix i j :
  is_square dist_matrix ->
  (i, j) ∈ off_diagonal (Z.of_nat (length dist_matrix) - 2) ->
  exists row c,
    dist_matrix !! S i = Some row /\ row !! S j = Some c /\
    (row ← py_getitem dist_matrix (Z.of_nat i + 1);
     c ← py_getitem row (Z.of_nat j + 1);
     v ← py_dict_get (x_vars (Z.of_nat (length dist_matrix) - 2)) (i, j);
     lp_scale c v) = lp_scale c (X i j).
Proof.
  intros Hsquare Hij. pose proof Hij as (Hi & Hj & _)%elem_of_off_diagonal.
  destruct (lookup_lt_is_Some_2 dist_matrix (S i)) as [row Hrow]; [lia|].
  assert (length row = length dist_matrix) as Hlen.
  { eapply Forall_forall in Hsquare; [done|]. by eapply list_elem_of_lookup_2. }
  destruct (lookup_lt_is_Some_2 row (S j)) as [c Hc]; [lia|].
  exists row, c. split; [done|]. split; [done|].
  rewrite py_getitem_succ, Hrow. simpl. rewrite py_getitem_succ, Hc. simpl.
  unfold py_dict_get. by rewrite x_vars_lookup_off_diagonal by done.
Qed.

Lemma tsp_objective_square dist_matrix n :
  n = (Z.of_nat (length dist_matrix) - 2)%Z ->
  is_square dist_matrix ->
  (forall a b, stop_pair dist_matrix a b -> ~ unreachable dist_matrix a b) ->
  is_Ok (tsp_objective dist_matrix (x_vars n) n).
Proof.
  intros -> Hsquare Hfin. apply mapM_total. intros [i j] Hij.
  destruct (tsp_objective_term _ _ _ Hsquare Hij) as (row & c & Hrow & Hc & ->).
  apply elem_of_off_diagonal in Hij as (Hi & Hj & Hne).
  destruct c as [d|]; [by eexists|]. exfalso.
  apply (Hfin (S i) (S j)); [unfold stop_pair; lia|]. by exists row.
Qed.

Lemma tsp_objective_square_cases dist_matrix n :
  n = (Z.of_nat (length dist_matrix) - 2)%Z ->
  is_square dist_matrix ->
  is_Ok (tsp_objective dist_matrix (x_vars n) n) \/
  tsp_objective dist_matrix (x_vars n) n = Raise PulpError.
Proof.
  intros -> Hsquare. apply mapM_Ok_or_Raise. intros [i j] Hij.
  destruct (tsp_objective_term _ _ _ Hsquare Hij) as (row & [d|] & _ & _ & ->).
  - left. by eexists.
  - by right.
Qed.

Lemma tsp_objective_unreachable dist_matrix n a b :
  n = (Z.of_nat (length dist_matrix) - 2)%Z ->
  is_square dist_matrix ->
  stop_pair dist_matrix a b -> unreachable dist_matrix a b ->
  tsp_objective dist_matrix (x_vars n) n = Raise PulpError.
Proof.
  intros Hn Hsquare (Ha1 & Ha2 & Hb1 & Hb2 & Hne) (row & Hrow & Hinf).
  destruct (tsp_objective_square_cases _ _ Hn Hsquare) as [[obj Hobj]|]; [|done].
  exfalso. subst n. apply mapM_Ok_Forall2 in Hobj.
  destruct a as [|i]; [lia|]. destruct b as [|j]; [lia|].
  assert ((i, j) ∈ off_diagonal (Z.of_nat (length dist_matrix) - 2)) as Hij.
  { apply elem_of_off_diagonal. lia. }
  pose proof Hij as (k & Hk)%list_elem_of_lookup.
  destruct (Forall2_lookup_l _ _ _ _ _ Hobj Hk) as (term & _ & Hterm).
  simpl in Hterm.
  destruct (tsp_objective_term _ _ _ Hsquare Hij)
    as (row' & c & Hrow' & Hc & Heq).
  rewrite Heq in Hterm. by simplify_eq.
Qed.

(** On a square matrix with three rows or more the exception is the
    [KeyError] of the first read of [x[0, 0]], unless a stop cannot be
    reached from another stop: then it is PuLP's, on line 51. *)
Lemma get_top_stop_orders_square_KeyError cbc dist_matrix num_orders :
  3 <= length dist_matrix ->
  is_square dist_matrix ->
  (forall a b, stop_pair dist_matrix a b -> ~ unreachable dist_matrix a b) ->
  get_top_stop_orders cbc dist_matrix num_orders = Raise KeyError.
Proof.
  intros HN Hsquare Hfin. unfold get_top_stop_orders.
  destruct (tsp_objective_square dist_matrix _ eq_refl Hsquare Hfin) as [obj ->].
  rewrite degree_constraints_x_vars, mtz_constraints_vars. simpl.
  by rewrite follow_edges_KeyError by lia.
Qed.

Lemma get_top_stop_orders_square_PulpError cbc dist_matrix num_orders a b :
  is_square dist_matrix ->
  stop_pair dist_matrix a b -> unreachable dist_matrix a b ->
  get_top_stop_orders cbc dist_matrix num_orders = Raise PulpError.
Proof.
  intros Hsquare Hab Hinf. unfold get_top_stop_orders.
  by rewrite (tsp_objective_unreachable _ _ a b eq_refl Hsquare Hab Hinf).
Qed.

Lemma get_top_stop_orders_square_cases cbc dist_matrix num_orders :
  3 <= length dist_matrix ->
  is_square dist_matrix ->
  get_top_stop_orders cbc dist_matrix num_orders = Raise KeyError \/
  get_top_stop_orders cbc dist_matrix num_orders = Raise PulpError.
Proof.
  intros HN Hsquare. unfold get_top_stop_orders.
  destruct (tsp_objective_square_cases dist_matrix _ eq_refl Hsquare)
    as [[obj ->]| ->]; [left|by right].
  rewrite degree_constraints_x_vars, mtz_constraints_vars. simpl.
  by rewrite follow_edges_KeyError by lia.
Qed.

(** ** Which exceptions the sequencer can raise *)

Lemma raises_only_Ok {A} P (a : A) : raises_only P (Ok a).
Proof. intros e. discriminate. Qed.

Lemma raises_only_Raise {A} (P : exn -> Prop) e : P e -> raises_only (A:=A) P (Raise e).
Proof. intros HP e' [= <-]. done. Qed.

Lemma raises_only_bind {A B} P (m : result A) (g : A -> result B) :
  raises_only P m -> (forall a, raises_only P (g a)) -> raises_only P (m ≫= g).
Proof.
  intros Hm Hg e [He|(a & _ & He)]%bind_Raise_inv; [by apply Hm|].
  by apply (Hg a).
Qed.

Lemma raises_only_weaken {A} (P P' : exn -> Prop) (r : result A) :
  (forall e, P e -> P' e) -> raises_only P r -> raises_only P' r.
Proof. intros HP Hr e He. by apply HP, Hr. Qed.

Lemma lookup_error_sequencer (e : exn) : lookup_error e -> sequencer_error e.
Proof. unfold sequencer_error. intros [->| ->]; auto. Qed.

Lemma raises_only_mapM {A B} P (f : A -> result B) l :
  (forall a, raises_only P (f a)) -> raises_only P (mapM f l).
Proof. intros Hf e (a & _ & He)%mapM_Raise_inv. by apply (Hf a). Qed.

Lemma py_getitem_raises {A} (l : list A) i : raises_only lookup_error (py_getitem l i).
Proof.
  unfold py_getitem. destruct (_ <? 0)%Z; [apply raises_only_Raise; by right|].
  destruct (l !! _); [apply raises_only_Ok | apply raises_only_Raise; by right].
Qed.

Lemma py_dict_get_raises `{Countable K} {V} (d : gmap K V) k :
  raises_only lookup_error (py_dict_get d k).
Proof.
  unfold py_dict_get.
  destruct (d !! k); [apply raises_only_Ok | apply raises_only_Raise; by left].
Qed.

Create HintDb raises discriminated.
#[local] Hint Resolve raises_only_Ok py_getitem_raises py_dict_get_raises : raises.
#[local] Hint Extern 2 (raises_only _ (_ ≫= _)) =>
  apply raises_only_bind; [|intros ?] : raises.
#[local] Hint Extern 2 (raises_only _ (mapM _ _)) =>
  apply raises_only_mapM; intros ? : raises.
#[local] Hint Extern 3 (raises_only _ (let '(_, _) := ?p in _)) =>
  destruct p : raises.

Lemma lp_scale_raises c v : raises_only sequencer_error (lp_scale c v).
Proof.
  destruct c; simpl; [apply raises_only_Ok|].
  apply raises_only_Raise. unfold sequencer_error. auto.
Qed.

Lemma tsp_objective_raises dm x n :
  raises_only sequencer_error (tsp_objective dm x n).
Proof.
  unfold tsp_objective. apply raises_only_mapM. intros [i j].
  apply raises_only_bind; [|intros row; apply raises_only_bind; [|intros c;
    apply raises_only_bind; [|intros v; apply lp_scale_raises]]];
    (eapply raises_only_weaken; [apply lookup_error_sequencer|]);
    auto with raises.
Qed.

Lemma degree_constraints_raises x n :
  raises_only lookup_error (degree_constraints x n).
Proof. unfold degree_constraints, lp_sum. auto 12 with raises. Qed.

Lemma mtz_constraints_raises x u n :
  raises_only lookup_error (mtz_constraints x u n).
Proof. unfold mtz_constraints. auto 10 with raises. Qed.

Lemma find_next_raises x sol current js :
  raises_only lookup_error (find_next x sol current js).
Proof.
  induction js as [|j js IH]; simpl; [auto with raises|].
  apply raises_only_bind; [auto with raises|]. intros v.
  destruct (value_is_one sol v); auto with raises.
Qed.

Lemma follow_edges_raises x sol n steps order current :
  raises_only lookup_error (follow_edges x sol n steps order current).
Proof.
  revert order current. induction steps as [|steps IH]; intros; simpl.
  - auto with raises.
  - apply raises_only_bind; [apply find_next_raises|]. intros [j|]; apply IH.
Qed.

Lemma candidate_orders_raises order n num_orders :
  raises_only lookup_error (candidate_orders order n num_orders).
Proof. unfold candidate_orders, swap_adjacent. auto 10 with raises. Qed.

Lemma get_top_stop_orders_raises_only cbc dist_matrix num_orders :
  raises_only sequencer_error (get_top_stop_orders cbc dist_matrix num_orders).
Proof.
  unfold get_top_stop_orders.
  apply raises_only_bind; [apply tsp_objective_raises|]. intros obj.
  eapply raises_only_weaken; [apply lookup_error_sequencer|].
  apply raises_only_bind; [apply degree_constraints_raises|]. intros deg.
  apply raises_only_bind; [apply mtz_constraints_raises|]. intros mtz.
  apply raises_only_bind; [apply follow_edges_raises|]. intros visited.
  apply candidate_orders_raises.
Qed.

(** ** The solver's status is never read *)

Lemma find_next_ext x sol sol' current js :
  (forall v, varValue sol v = varValue sol' v) ->
  find_next x sol current js = find_next x sol' current js.
Proof.
  intros Hval. induction js as [|j js IH]; simpl; [done|].
  destruct (py_dict_get x (current, j)) as [v|]; simpl; [|done].
  unfold value_is_one. rewrite (Hval v), IH. done.
Qed.

Lemma follow_edges_ext x sol sol' n steps order current :
  (forall v, varValue sol v = varValue sol' v) ->
  follow_edges x sol n steps order current
  = follow_edges x sol' n steps order current.
Proof.
  intros Hval. revert order current.
  induction steps as [|steps IH]; intros; simpl; [done|].
  rewrite (find_next_ext _ _ sol') by done.
  destruct (find_next x sol' current (range n)) as [[j|]|]; simpl; auto.
Qed.

(** C3. With no intermediate stop (two waypoints) the function returns the
    single order [0, 1], whatever the solver answers. With one intermediate
    stop (three waypoints) it returns nothing: it raises [KeyError] on its
    first read of [x[current, j]], where [current = j = 0] and the dict [x]
    is empty, whatever the matrix rows, the solver and [num_orders] are. *)
Theorem get_top_stop_orders_one_stop_KeyError :
  (forall (cbc : LpProblem -> LpSolution) (row0 row1 : list cost),
      get_top_stop_orders cbc [row0; row1] 5 = Ok [[0; 1]%Z]) /\
  (forall (cbc : LpProblem -> LpSolution) (row0 row1 row2 : list cost)
          (num_orders : Z),
      x_vars 1 = ∅ /\
      get_top_stop_orders cbc [row0; row1; row2] num_orders = Raise KeyError).
Proof.
  split.
  - intros cbc row0 row1. by rewrite get_top_stop_orders_no_stops.
  - intros cbc row0 row1 row2 num_orders. split; [reflexivity|].
    unfold get_top_stop_orders.
    change (Z.of_nat (length [row0; row1; row2]) - 2)%Z with 1%Z.
    assert (tsp_objective [row0; row1; row2] (x_vars 1) 1 = Ok []) as ->
      by reflexivity.
    rewrite degree_constraints_x_vars, mtz_constraints_vars.
    cbv beta iota zeta delta [mbind result_bind].
    by rewrite follow_edges_KeyError.
Qed.

(** C8, as amended. [get_top_stop_orders] never raises [OptimizationError],
    and what it does is the same for two solver runs that assign the same
    values, whatever status each reports: the status is not consulted. *)
Theorem get_top_stop_orders_ignores_status
    (cbc cbc' : LpProblem -> LpSolution) (dist_matrix : list (list cost))
    (num_orders : Z) :
  (forall prob v, varValue (cbc prob) v = varValue (cbc' prob) v) ->
  get_top_stop_orders cbc dist_matrix num_orders
  = get_top_stop_orders cbc' dist_matrix num_orders /\
  get_top_stop_orders cbc dist_matrix num_orders ≠ Raise OptimizationError.
Proof.
  intros Hval. split.
  - unfold get_top_stop_orders.
    destruct (tsp_objective _ _ _) as [obj|]; simpl; [|done].
    destruct (degree_constraints _ _) as [deg|]; simpl; [|done].
    destruct (mtz_constraints _ _ _) as [mtz|]; simpl; [|done].
    by rewrite (follow_edges_ext _ _ (cbc' _)) by apply Hval.
  - intros He. apply get_top_stop_orders_raises_only in He as [?|[?|?]]; done.
Qed.

(** ** get_safe_route: the left-turn test *)

Lemma Qgt_bool_iff (a b : Q) : Qgt_bool a b = true <-> (b < a)%Q.
Proof.
  unfold Qgt_bool. rewrite negb_true_iff, <- not_true_iff_false, Qle_bool_iff.
  split; [apply Qnot_le_lt | apply Qlt_not_le].
Qed.

Lemma starts_with_iff (p s : string) :
  starts_with p s = true <-> exists post, s = (p +:+ post)%string.
Proof.
  revert s. induction p as [|a p IH]; intros s; simpl.
  - split; [by exists s | done].
  - destruct s as [|b s].
    + split; [done | intros [post [=]]].
    + destruct (decide (a = b)) as [->|Hne].
      * rewrite IH. split; intros [post Hpost]; exists post.
        -- by subst.
        -- change (String b s = String b (p +:+ post)) in Hpost. congruence.
      * split; [done | intros [post [=]]; done].
Qed.

Lemma py_in_iff (sub s : string) :
  py_in sub s = true <-> exists pre post, s = (pre +:+ sub +:+ post)%string.
Proof.
  induction s as [|b s IH]; simpl.
  - rewrite orb_false_r, starts_with_iff. split.
    + intros [post Hpost]. by exists ""%string, post.
    + intros ([|c pre] & post & Hs); [by exists post | discriminate].
  - rewrite orb_true_iff, starts_with_iff, IH. split.
    + intros [[post Hpost]|(pre & post & ->)].
      * by exists ""%string, post.
      * by exists (String b pre), post.
    + intros ([|c pre] & post & Hs); [left; by exists post|].
      right. exists pre, post.
      change (String b s = String c (pre +:+ sub +:+ post)) in Hs.
      congruence.
Qed.

(** C9. A maneuver counts as a left turn exactly when its [turn_degree] ([0]
    when absent) is strictly greater than [90] and ["left"] occurs somewhere
    in its [verbal_turn_alert] (the empty string when absent). A maneuver
    that lacks either field does not count; the test is a total function, so
    no maneuver makes the count fail. *)
Theorem is_left_turn_iff (m : Maneuver) :
  (is_left_turn m = true <->
     (90 < default 0%Q (turn_degree m))%Q /\
     exists pre post,
       default ""%string (verbal_turn_alert m) = (pre +:+ "left" +:+ post)%string) /\
  (turn_degree m = None -> is_left_turn m = false) /\
  (verbal_turn_alert m = None -> is_left_turn m = false) /\
  (forall ms, left_turns (m :: ms) =
     if is_left_turn m then S (left_turns ms) else left_turns ms).
Proof.
  split; [|split; [|split]].
  - unfold is_left_turn. by rewrite andb_true_iff, Qgt_bool_iff, py_in_iff.
  - intros Hdeg. unfold is_left_turn. by rewrite Hdeg.
  - intros Halert. unfold is_left_turn. rewrite Halert. apply andb_false_r.
  - intros ms. unfold left_turns. rewrite filter_cons.
    destruct (is_left_turn m); [by rewrite decide_True | by rewrite decide_False].
Qed.

(** ** get_safe_route: the result *)

Lemma left_turns_app (ms1 ms2 : list Maneuver) :
  left_turns (ms1 ++ ms2) = left_turns ms1 + left_turns ms2.
Proof. unfold left_turns. by rewrite filter_app, length_app. Qed.

Lemma left_turns_cons (m : Maneuver) (ms : list Maneuver) :
  left_turns (m :: ms) = (if is_left_turn m then 1 else 0) + left_turns ms.
Proof.
  unfold left_turns. rewrite filter_cons.
  destruct (is_left_turn m); [by rewrite decide_True | by rewrite decide_False].
Qed.

(** What a returned route is made of: the first leg of a well-formed answer
    with a non-error status. *)
Lemma get_safe_route_Ok_inv post order points url r :
  get_safe_route post order points url = Ok r ->
  exists payload code data leg,
    post url payload = Response code (Some data) /\
    is_error_status code = false /\
    legs data !! 0 = Some leg /\
    route_of_leg leg = Ok r.
Proof.
  unfold get_safe_route. intros (locs & _ & H)%bind_Ok_inv.
  destruct (post url _) as [|code [data|]] eqn:Hpost; [discriminate| |];
    destruct (is_error_status code) eqn:Hcode; try discriminate.
  change 0%Z with (Z.of_nat 0) in H. rewrite py_getitem_nat in H.
  destruct (legs data !! 0) as [leg|] eqn:Hleg; [|discriminate].
  simpl in H. eauto 10.
Qed.

Lemma route_of_leg_Ok_inv leg r :
  route_of_leg leg = Ok r ->
  py_add (summary_length (summary leg))
         (Z.of_nat (left_turns (leg_maneuvers leg)) * 5) = Ok (risk_score r) /\
  py_truediv (summary_time (summary leg)) 60 = Ok (time r) /\
  distance r = summary_length (summary leg) /\
  polyline r = shape leg /\
  maneuvers r = leg_maneuvers leg.
Proof.
  unfold route_of_leg.
  intros (risk & Hrisk & (minutes & Hminutes & [= <-])%bind_Ok_inv)%bind_Ok_inv.
  done.
Qed.

(** Adding an int to a number is monotone in the number, for two numbers
    of the same type, and in the int. *)
Lemma py_add_mono_l (a b : pynum) (k : Z) (ra rb : pynum) :
  same_kind a b -> py_leb a b = true ->
  py_add a k = Ok ra -> py_add b k = Ok rb -> py_leb ra rb = true.
Proof.
  destruct a as [x|f], b as [y|g]; simpl; try done; intros _ Hle.
  - intros [= <-] [= <-]. apply py_leb_int. apply py_leb_int in Hle. lia.
  - destruct (float_of_int k) as [c|]; simpl; [|done].
    intros [= <-] [= <-]. by apply float_add_mono_l.
Qed.

Lemma py_add_mono_r (a : pynum) (k k' : Z) (r r' : pynum) :
  (k <= k')%Z ->
  py_add a k = Ok r -> py_add a k' = Ok r' -> py_leb r r' = true.
Proof.
  intros Hk. destruct a as [x|f]; simpl.
  - intros [= <-] [= <-]. apply py_leb_int. lia.
  - destruct (float_of_int k) as [c|] eqn:Hc; simpl; [|done].
    destruct (float_of_int k') as [c'|] eqn:Hc'; simpl; [|done].
    intros [= <-] [= <-]. apply float_add_mono_r.
    by eapply float_of_int_mono.
Qed.

(** C4, as amended. The risk score of a returned route is the Python sum
    [distance + left_turns * 5] of its distance and five times the number
    of its left-turn maneuvers: exact when the distance is an int, rounded
    to the nearest double when it is a float. For a fixed maneuver list it
    is monotone in the distance, over two distances of the same number
    type. For a fixed distance, one more left-turn maneuver never lowers
    it, and adds exactly [5] when the distance is an int; a maneuver that
    is no left turn changes nothing. *)
Theorem risk_score_formula :
  (forall post order points url r,
      get_safe_route post order points url = Ok r ->
      py_add (distance r) (Z.of_nat (left_turns (maneuvers r)) * 5)
      = Ok (risk_score r)) /\
  (forall leg r d,
      route_of_leg leg = Ok r ->
      summary_length (summary leg) = PyInt d ->
      risk_score r
      = PyInt (d + 5 * Z.of_nat (left_turns (leg_maneuvers leg)))) /\
  (forall leg1 leg2 r1 r2,
      leg_maneuvers leg1 = leg_maneuvers leg2 ->
      same_kind (summary_length (summary leg1))
                (summary_length (summary leg2)) ->
      py_leb (summary_length (summary leg1))
             (summary_length (summary leg2)) = true ->
      route_of_leg leg1 = Ok r1 ->
      route_of_leg leg2 = Ok r2 ->
      py_leb (risk_score r1) (risk_score r2) = true) /\
  (forall leg1 leg2 r1 r2 ms1 m ms2,
      summary_length (summary leg1) = summary_length (summary leg2) ->
      leg_maneuvers leg1 = ms1 ++ ms2 ->
      leg_maneuvers leg2 = ms1 ++ m :: ms2 ->
      route_of_leg leg1 = Ok r1 ->
      route_of_leg leg2 = Ok r2 ->
      if is_left_turn m
      then py_leb (risk_score r1) (risk_score r2) = true /\
           (forall d, summary_length (summary leg1) = PyInt d ->
                      exists z, risk_score r1 = PyInt z /\
                                risk_score r2 = PyInt (z + 5))
      else risk_score r2 = risk_score r1).
Proof.
  split; [|split; [|split]].
  - intros post order points url r
      (_ & _ & _ & leg & _ & _ & _ & Hr)%get_safe_route_Ok_inv.
    apply route_of_leg_Ok_inv in Hr as (Hrisk & _ & -> & _ & ->). done.
  - intros leg r d (Hrisk & _)%route_of_leg_Ok_inv Hd.
    rewrite Hd in Hrisk. simpl in Hrisk. injection Hrisk as <-.
    f_equal. lia.
  - intros leg1 leg2 r1 r2 Hms Hkind Hle
      (Hr1 & _)%route_of_leg_Ok_inv (Hr2 & _)%route_of_leg_Ok_inv.
    rewrite Hms in Hr1. by eapply py_add_mono_l.
  - intros leg1 leg2 r1 r2 ms1 m ms2 Hlen Hms1 Hms2
      (Hr1 & _)%route_of_leg_Ok_inv (Hr2 & _)%route_of_leg_Ok_inv.
    rewrite <- Hlen, Hms2, left_turns_app, left_turns_cons in Hr2.
    rewrite Hms1, left_turns_app in Hr1.
    destruct (is_left_turn m).
    + split; [eapply py_add_mono_r; [|done..]; lia|].
      intros d Hd. rewrite Hd in Hr1, Hr2. simpl in Hr1, Hr2.
      injection Hr1 as <-. injection Hr2 as <-.
      eexists. split; [done|]. f_equal. lia.
    + simpl in Hr2. rewrite Hr1 in Hr2. by injection Hr2.
Qed.
(** ** analyze_routes: the stable sort *)

Lemma insert_by_risk_Permutation r l : insert_by_risk r l ≡ₚ r :: l.
Proof.
  induction l as [|r' l IH]; simpl; [done|].
  destruct (py_leb _ _); [done|]. rewrite IH. apply perm_swap.
Qed.

Lemma sort_by_risk_Permutation l : sort_by_risk l ≡ₚ l.
Proof.
  induction l as [|r l IH]; simpl; [done|].
  by rewrite insert_by_risk_Permutation, IH.
Qed.

Lemma insert_by_risk_sorted r l :
  StronglySorted risk_le l -> StronglySorted risk_le (insert_by_risk r l).
Proof.
  induction 1 as [|r' l Hl IH Hr']; simpl; [repeat constructor|].
  destruct (py_leb (risk_score r) (risk_score r')) eqn:Hle.
  - constructor; [by constructor|].
    constructor; [done|].
    eapply Forall_impl; [done|]. intros r'' Hr''. unfold risk_le in *.
    by eapply py_leb_trans.
  - constructor; [done|]. rewrite insert_by_risk_Permutation.
    constructor; [|done]. unfold risk_le. by apply py_leb_total.
Qed.

Lemma sort_by_risk_sorted l : StronglySorted risk_le (sort_by_risk l).
Proof.
  induction l as [|r l IH]; simpl; [constructor|].
  by apply insert_by_risk_sorted.
Qed.

(** Routes of equal risk keep their relative order. *)
Lemma insert_by_risk_stable q r l :
  filter (has_risk q) (insert_by_risk r l) = filter (has_risk q) (r :: l).
Proof.
  induction l as [|r' l IH]; simpl; [done|].
  destruct (py_leb (risk_score r) (risk_score r')) eqn:Hle; [done|].
  rewrite filter_cons, IH, !filter_cons.
  destruct (decide (has_risk q r')) as [Hr'|]; [|done].
  destruct (decide (has_risk q r)) as [Hr|]; [|done].
  unfold has_risk, py_eqb in *.
  apply andb_true_iff in Hr as [Hr _], Hr' as [_ Hr'].
  assert (py_leb (risk_score r) (risk_score r') = true); [|congruence].
  by eapply py_leb_trans.
Qed.

Lemma sort_by_risk_stable q l :
  filter (has_risk q) (sort_by_risk l) = filter (has_risk q) l.
Proof.
  induction l as [|r l IH]; simpl; [done|].
  by rewrite insert_by_risk_stable, !filter_cons, IH.
Qed.

Lemma StronglySorted_take {A} (R : A -> A -> Prop) k l :
  StronglySorted R l -> StronglySorted R (take k l).
Proof.
  intros Hl. revert k. induction Hl as [|a l Hl IH Ha]; intros [|k]; simpl;
    try constructor; [apply IH|].
  eapply Forall_forall. intros b Hb%subseteq_take.
  by eapply Forall_forall in Ha.
Qed.

(** ** analyze_routes: the evaluation loop *)

Lemma successes_cons post points order orders :
  successes post points (order :: orders) =
    match get_safe_route post order points default_valhalla_url with
    | Ok r => r :: successes post points orders
    | Raise _ => successes post points orders
    end.
Proof.
  unfold successes. simpl.
  by destruct (get_safe_route post order points default_valhalla_url).
Qed.

Lemma evaluate_orders_Ok_iff post points orders routes :
  evaluate_orders post points orders = Ok routes <->
  only_routing_failures post points orders /\
  routes = successes post points orders.
Proof.
  revert routes. induction orders as [|order orders IH]; intros routes.
  - simpl. split.
    + intros [= <-]. split; [|done]. by intros ? ? ?%elem_of_nil.
    + by intros [_ ->].
  - rewrite successes_cons. simpl.
    destruct (get_safe_route post order points default_valhalla_url)
      as [r|e] eqn:Hr.
    + split.
      * intros (routes' & [Hfail ->]%IH & [= <-])%bind_Ok_inv. split; [|reflexivity].
        intros o e [->|Ho]%elem_of_cons He; [congruence|exact (Hfail o e Ho He)].
      * intros [Hfail ->].
        assert (only_routing_failures post points orders) as Hfail'
          by (intros o e Ho; apply Hfail; by right).
        by destruct (IH (successes post points orders)) as [_ ->].
    + assert (e = RuntimeError ->
              (evaluate_orders post points orders = Ok routes <->
               only_routing_failures post points (order :: orders) /\
               routes = successes post points orders)) as Hcaught.
      { intros ->. rewrite IH. split; intros [Hfail ->]; (split; [|done]).
        - intros o e [->|Ho]%elem_of_cons He; [congruence|exact (Hfail o e Ho He)].
        - intros o e Ho. apply Hfail. by right. }
      destruct e; try (by apply Hcaught);
        (split; [done|]; intros [Hfail _];
         specialize (Hfail order _ ltac:(left) Hr); done).
Qed.

Lemma successes_app post points l1 l2 :
  successes post points (l1 ++ l2)
  = successes post points l1 ++ successes post points l2.
Proof. unfold successes. apply omap_app. Qed.

(** A candidate whose evaluation raises [RuntimeError] is skipped: the loop
    does to the other candidates what it does without it. *)
Lemma evaluate_orders_drop_failure post points l1 order l2 :
  get_safe_route post order points default_valhalla_url = Raise RuntimeError ->
  evaluate_orders post points (l1 ++ order :: l2)
  = evaluate_orders post points (l1 ++ l2).
Proof.
  intros Hfail. induction l1 as [|o l1 IH]; simpl.
  - by rewrite Hfail.
  - by rewrite IH.
Qed.

Lemma elem_of_successes post points orders r :
  r ∈ successes post points orders <->
  exists order, order ∈ orders /\
    get_safe_route post order points default_valhalla_url = Ok r.
Proof.
  unfold successes. rewrite list_elem_of_omap. split.
  - intros (order & Ho & Hr). exists order. split; [done|].
    destruct (get_safe_route _ _ _ _); by simplify_eq.
  - intros (order & Ho & Hr). exists order. by rewrite Hr.
Qed.

Lemma select_routes_Ok_inv post points orders rs :
  select_routes post points orders = Ok rs ->
  only_routing_failures post points orders /\
  rs = take 3 (sort_by_risk (successes post points orders)).
Proof.
  unfold select_routes.
  intros (routes & [Hfail ->]%evaluate_orders_Ok_iff & [= <-])%bind_Ok_inv.
  split; [done|]. change 3%Z with (Z.of_nat 3). apply py_slice_to_nonneg.
Qed.

Lemma select_routes_Ok post points orders :
  only_routing_failures post points orders ->
  select_routes post points orders
  = Ok (take 3 (sort_by_risk (successes post points orders))).
Proof.
  intros Hfail. unfold select_routes.
  destruct (evaluate_orders_Ok_iff post points orders
              (successes post points orders)) as [_ ->]; done.
Qed.

Lemma select_routes_members post points orders rs r :
  select_routes post points orders = Ok rs -> r ∈ rs ->
  exists order, order ∈ orders /\
    get_safe_route post order points default_valhalla_url = Ok r.
Proof.
  intros [_ ->]%select_routes_Ok_inv Hr%subseteq_take.
  rewrite sort_by_risk_Permutation in Hr. by apply elem_of_successes.
Qed.

Lemma analyze_routes_Ok_inv w origin destination stops rs :
  analyze_routes w origin destination stops = Ok rs ->
  let points := [origin] ++ stops ++ [destination] in
  exists G dist_matrix orders,
    get_osm_graph (graph_from_bbox w) points = Ok G /\
    compute_distance_matrix G points = Ok dist_matrix /\
    get_top_stop_orders (cbc_solve w) dist_matrix 5 = Ok orders /\
    select_routes (http_post w) points orders = Ok rs.
Proof.
  unfold analyze_routes.
  intros (G & HG & (dm & Hdm & (orders & Horders & Hsel)%bind_Ok_inv)%bind_Ok_inv)%bind_Ok_inv.
  simpl. eauto 10.
Qed.

Lemma compute_distance_matrix_square G points dist_matrix :
  compute_distance_matrix G points = Ok dist_matrix ->
  length dist_matrix = length points /\
  Forall (fun row => length row = length dist_matrix) dist_matrix.
Proof.
  unfold compute_distance_matrix.
  intros (nodes & Hnodes%mapM_Ok_length & Hdm)%bind_Ok_inv.
  pose proof (mapM_Ok_length _ _ _ Hdm) as Hlen.
  rewrite enumerate_length in Hlen. split; [by rewrite Hlen|].
  apply mapM_Ok_Forall2 in Hdm. apply Forall_forall.
  intros row (i & Hi)%list_elem_of_lookup.
  destruct (Forall2_lookup_r _ _ _ _ _ Hdm Hi) as ([i' u] & _ & Hrow).
  apply mapM_Ok_length in Hrow. rewrite enumerate_length in Hrow.
  by rewrite Hrow, Hlen.
Qed.

(** A candidate whose evaluation raises anything but [RuntimeError] ends the
    loop with that exception. *)
Lemma evaluate_orders_aborts post points before order after e :
  only_routing_failures post points before ->
  get_safe_route post order points default_valhalla_url = Raise e ->
  e ≠ RuntimeError ->
  evaluate_orders post points (before ++ order :: after) = Raise e.
Proof.
  intros Hbefore Horder He. induction before as [|o before IH]; simpl.
  - rewrite Horder. by destruct e.
  - rewrite IH by (intros o' e' Ho'; apply Hbefore; by right).
    destruct (get_safe_route post o points default_valhalla_url)
      as [r|e'] eqn:Ho; [done|].
    by rewrite (Hbefore o e' ltac:(left) Ho).
Qed.

(** With at least one intermediate stop [analyze_routes] returns nothing:
    the matrix has three rows or more and the sequencer raises. *)
Lemma analyze_routes_with_stops_raises w origin destination stop stops :
  exists e, analyze_routes w origin destination (stop :: stops) = Raise e.
Proof.
  destruct (analyze_routes w origin destination (stop :: stops))
    as [rs|e] eqn:Hrun; [|by eexists].
  apply analyze_routes_Ok_inv in Hrun
    as (G & dm & orders & _ & Hdm & Horders & _).
  unfold compute_distance_matrix in Hdm.
  apply bind_Ok_inv in Hdm as (nodes & Hnodes%mapM_Ok_length & Hdm%mapM_Ok_length).
  rewrite enumerate_length, Hnodes in Hdm. simpl in Hdm.
  rewrite length_app in Hdm. simpl in Hdm.
  destruct (get_top_stop_orders_raises (cbc_solve w) dm 5) as [e He]; [lia|].
  congruence.
Qed.

(** Once the graph and the matrix are there, the exception is one of the
    sequencer: PuLP's when a stop cannot be reached from another, the
    [KeyError] of the reconstruction otherwise. *)
Lemma analyze_routes_with_stops_error w origin destination stop stops G dm :
  let points := [origin] ++ (stop :: stops) ++ [destination] in
  get_osm_graph (graph_from_bbox w) points = Ok G ->
  compute_distance_matrix G points = Ok dm ->
  analyze_routes w origin destination (stop :: stops) = Raise KeyError \/
  analyze_routes w origin destination (stop :: stops) = Raise PulpError.
Proof.
  intros points HG Hdm. unfold analyze_routes. fold points.
  rewrite HG. simpl. rewrite Hdm. simpl.
  destruct (compute_distance_matrix_square _ _ _ Hdm) as [Hlen Hsquare].
  destruct (get_top_stop_orders_square_cases (cbc_solve w) dm 5)
    as [-> | ->]; [|done|by left|by right].
  rewrite Hlen. unfold points. simpl. rewrite length_app. simpl. lia.
Qed.

Lemma successes_length_le post points orders :
  length (successes post points orders) <= length orders.
Proof.
  induction orders as [|order orders IH]; [done|].
  rewrite successes_cons.
  destruct (get_safe_route post order points default_valhalla_url); simpl; lia.
Qed.

(** If as many routes come back as there are candidates, no evaluation
    failed. *)
Lemma successes_all post points orders :
  length (successes post points orders) = length orders ->
  only_routing_failures post points orders.
Proof.
  induction orders as [|order orders IH]; [by intros _ ? ? ?%elem_of_nil|].
  rewrite successes_cons.
  pose proof (successes_length_le post points orders) as Hle.
  destruct (get_safe_route post order points default_valhalla_url)
    as [r|e] eqn:Hr; simpl; intros Hlen; [|lia].
  intros o e [->|Ho]%elem_of_cons He; [congruence|].
  apply (IH ltac:(lia) o e Ho He).
Qed.

(** Lines 73-79 make four candidates at most. *)
Lemma candidate_orders_length_le order n num_orders orders :
  candidate_orders order n num_orders = Ok orders -> length orders <= 4.
Proof.
  intros (alts & Halts%Forall2_length & ->)%candidate_orders_inv.
  unfold range_from in Halts. rewrite length_seq in Halts.
  unfold py_slice_to. destruct (num_orders <? 0)%Z; rewrite length_take; simpl; lia.
Qed.

Lemma returns_top_three_intro post points orders :
  only_routing_failures post points orders ->
  3 < length (successes post points orders) ->
  returns_top_three post points orders.
Proof.
  intros Hfail Hmany.
  exists (sort_by_risk (successes post points orders)),
         (take 3 (sort_by_risk (successes post points orders))).
  split; [by apply select_routes_Ok|]. split.
  { rewrite length_take, sort_by_risk_Permutation. lia. }
  split; [done|]. split; [apply StronglySorted_take, sort_by_risk_sorted|].
  split; [apply sort_by_risk_Permutation|].
  split; [apply sort_by_risk_sorted | intros q; apply sort_by_risk_stable].
Qed.

(** C5. [analyze_routes] never returns more than three routes. Whenever more
    than three candidate evaluations succeed, the selection (lines 131-139)
    returns exactly three routes: the first three of the successful routes
    sorted by ascending risk score, routes of equal risk score staying in
    candidate order. This holds for the candidate lists that lines 73-79
    make (four candidates at most, so all of them succeeded), and for any
    candidate list whose failed evaluations raised the routing-service
    error. *)
Theorem select_routes_top_three :
  (forall w origin destination stops rs,
      analyze_routes w origin destination stops = Ok rs -> length rs <= 3) /\
  (forall post points orders rs,
      select_routes post points orders = Ok rs -> length rs <= 3) /\
  (forall post points order n orders,
      candidate_orders order n 5 = Ok orders ->
      3 < length (successes post points orders) ->
      returns_top_three post points orders) /\
  (forall post points orders,
      only_routing_failures post points orders ->
      3 < length (successes post points orders) ->
      returns_top_three post points orders).
Proof.
  assert (forall post points orders rs,
            select_routes post points orders = Ok rs -> length rs <= 3) as Hmax.
  { intros post points orders rs [_ ->]%select_routes_Ok_inv.
    rewrite length_take. lia. }
  split; [|split; [done|split]].
  - intros w origin destination stops rs
      (G & dm & orders & _ & _ & _ & Hsel)%analyze_routes_Ok_inv.
    by eapply Hmax.
  - intros post points order n orders Hcand%candidate_orders_length_le Hmany.
    apply returns_top_three_intro; [|done].
    apply successes_all.
    pose proof (successes_length_le post points orders). lia.
  - apply returns_top_three_intro.
Qed.

(** C6. The loop of lines 131-137 evaluates every candidate and keeps the
    routes of those that succeed, in candidate order, as long as the
    evaluations that fail do so with the routing-service error: a candidate
    that fails this way is skipped, the candidates before and after it are
    evaluated and their routes kept. If every candidate fails this way the
    selection returns the empty list and raises nothing, and so does
    [analyze_routes] once its earlier stages have produced the
    candidates. *)
Theorem routing_failures_are_dropped :
  (forall post points orders,
      (forall order, order ∈ orders ->
         get_safe_route post order points default_valhalla_url
         = Raise RuntimeError) ->
      select_routes post points orders = Ok []) /\
  (forall w origin destination stops G dist_matrix orders,
      let points := [origin] ++ stops ++ [destination] in
      get_osm_graph (graph_from_bbox w) points = Ok G ->
      compute_distance_matrix G points = Ok dist_matrix ->
      get_top_stop_orders (cbc_solve w) dist_matrix 5 = Ok orders ->
      (forall order, order ∈ orders ->
         get_safe_route (http_post w) order points default_valhalla_url
         = Raise RuntimeError) ->
      analyze_routes w origin destination stops = Ok []) /\
  (forall post points before order after,
      get_safe_route post order points default_valhalla_url
      = Raise RuntimeError ->
      evaluate_orders post points (before ++ order :: after)
      = evaluate_orders post points (before ++ after) /\
      select_routes post points (before ++ order :: after)
      = select_routes post points (before ++ after)) /\
  (forall post points orders routes,
      evaluate_orders post points orders = Ok routes <->
      only_routing_failures post points orders /\
      routes = successes post points orders) /\
  (forall post points before order after,
      get_safe_route post order points default_valhalla_url
      = Raise RuntimeError ->
      only_routing_failures post points (before ++ after) ->
      evaluate_orders post points (before ++ order :: after)
      = Ok (successes post points before ++ successes post points after) /\
      select_routes post points (before ++ order :: after)
      = Ok (take 3 (sort_by_risk (successes post points before
                                  ++ successes post points after))) /\
      (forall r, r ∈ successes post points before
                     ++ successes post points after <->
                 exists o, o ∈ before ++ after /\
                   get_safe_route post o points default_valhalla_url = Ok r)).
Proof.
  assert (forall post points orders,
            (forall order, order ∈ orders ->
               get_safe_route post order points default_valhalla_url
               = Raise RuntimeError) ->
            select_routes post points orders = Ok []) as Hall.
  { intros post points orders Hfail.
    rewrite select_routes_Ok.
    - replace (successes post points orders) with (@nil Route); [done|].
      symmetry. apply elem_of_nil_inv. intros r (o & Ho & Hr)%elem_of_successes.
      rewrite (Hfail o Ho) in Hr. discriminate.
    - intros o e Ho He. rewrite (Hfail o Ho) in He. congruence. }
  split; [done|]. split; [|split; [|split]].
  - intros w origin destination stops G dm orders points HG Hdm Horders Hfail.
    unfold analyze_routes. fold points. rewrite HG. simpl.
    rewrite Hdm. simpl. rewrite Horders. simpl. by apply Hall.
  - intros post points before order after Hfail.
    assert (evaluate_orders post points (before ++ order :: after)
            = evaluate_orders post points (before ++ after)) as Heq
      by by apply evaluate_orders_drop_failure.
    split; [done|]. unfold select_routes. by rewrite Heq.
  - apply evaluate_orders_Ok_iff.
  - intros post points before order after Hfail Hothers.
    assert (evaluate_orders post points (before ++ order :: after)
            = Ok (successes post points before ++ successes post points after))
      as Heval.
    { rewrite evaluate_orders_drop_failure by done.
      apply evaluate_orders_Ok_iff. split; [done|].
      by rewrite successes_app. }
    split; [done|]. split.
    + unfold select_routes. rewrite Heval. simpl.
      change 3%Z with (Z.of_nat 3). by rewrite py_slice_to_nonneg.
    + intros r. rewrite <- successes_app. apply elem_of_successes.
Qed.

(** C10. A route returned by [get_safe_route] is built from the first leg of
    the service's answer: its time is the leg's summary time divided by
    [60]; its distance, polyline and maneuver list are the leg's summary
    length, shape and maneuver list, unchanged. Every route that
    [analyze_routes] returns is such a route, for one of the candidates. *)
Theorem get_safe_route_passthrough :
  (forall post order points url r,
      get_safe_route post order points url = Ok r ->
      exists payload code data leg,
        post url payload = Response code (Some data) /\
        legs data !! 0 = Some leg /\
        py_truediv (summary_time (summary leg)) 60 = Ok (time r) /\
        distance r = summary_length (summary leg) /\
        polyline r = shape leg /\
        maneuvers r = leg_maneuvers leg) /\
  (forall w origin destination stops rs r,
      analyze_routes w origin destination stops = Ok rs ->
      r ∈ rs ->
      exists order,
        get_safe_route (http_post w) order
          ([origin] ++ stops ++ [destination]) default_valhalla_url = Ok r).
Proof.
  split.
  - intros post order points url r
      (payload & code & data & leg & Hpost & _ & Hleg & Hr)%get_safe_route_Ok_inv.
    apply route_of_leg_Ok_inv in Hr as (_ & Htime & Hdist & Hline & Hms).
    exists payload, code, data, leg. done.
  - intros w origin destination stops rs r
      (G & dm & orders & _ & _ & _ & Hsel)%analyze_routes_Ok_inv Hr.
    destruct (select_routes_members _ _ _ _ _ Hsel Hr) as (order & _ & Hroute).
    eauto.
Qed.

(** ** Instances on concrete inputs *)

Lemma get_top_stop_orders_returns_no_stop_order_witness :
  get_top_stop_orders infeasible_cbc dm4 5 = Raise KeyError /\
  get_top_stop_orders optimistic_cbc dm4 5 = Raise KeyError /\
  (exists e, get_top_stop_orders infeasible_cbc dm4 5 = Raise e) /\
  (forall orders o,
      get_top_stop_orders infeasible_cbc dm4 5 = Ok orders ->
      o ∈ orders -> False) /\
  (forall row0 row1 orders o,
      get_top_stop_orders infeasible_cbc [row0; row1] 5 = Ok orders ->
      o ∈ orders ->
      o = [0; 1]%Z /\ is_stop_order 2 o).
Proof.
  split; [reflexivity|]. split; [reflexivity|].
  apply (get_top_stop_orders_returns_no_stop_order infeasible_cbc dm4 5).
  simpl. lia.
Defined.

(** C2, the claim as stated, at four waypoints (two stops): the function
    returns no list at all, and the list that lines 73-79 build from the
    Stop Order [0, 1, 2, 3] has two members, not
    [min(5, 1 + min(2, 4)) = 3]. *)
Lemma candidate_count_counterexample :
  ~ (exists orders,
       get_top_stop_orders infeasible_cbc dm4 5 = Ok orders /\
       Z.of_nat (length orders) = Z.min 5 (1 + Z.min 2 4)) /\
  candidate_orders [0; 1; 2; 3]%Z 2 5
    = Ok [[0; 1; 2; 3]; [0; 2; 1; 3]]%Z /\
  ~ (exists orders,
       candidate_orders [0; 1; 2; 3]%Z 2 5 = Ok orders /\
       Z.of_nat (length orders) = Z.min 5 (1 + Z.min 2 4)).
Proof.
  split; [|split].
  - intros (orders & Hget & _). vm_compute in Hget. discriminate.
  - reflexivity.
  - intros (orders & Hget & Hlen). vm_compute in Hget.
    injection Hget as <-. vm_compute in Hlen. discriminate.
Qed.

Lemma candidate_orders_adjacent_swaps_witness :
  exists alts,
    candidate_orders [0; 1; 2; 3]%Z 2 5 = Ok ([0; 1; 2; 3]%Z :: alts) /\
    Z.of_nat (length ([0; 1; 2; 3]%Z :: alts)) = Z.min 5 (Z.min 2 4) /\
    NoDup ([0; 1; 2; 3]%Z :: alts) /\
    forall k alt, alts !! k = Some alt ->
      (1 <= S k /\ (Z.of_nat (S k) + 1 <= 2)%Z) /\
      is_adjacent_swap (S k) [0; 1; 2; 3]%Z alt /\
      alt ≠ [0; 1; 2; 3]%Z /\
      is_stop_order (2 + 2) alt.
Proof.
  apply (candidate_orders_adjacent_swaps [0; 1; 2; 3]%Z 2).
  - lia.
  - exists [1; 2]%Z. split; reflexivity.
Defined.

(** C8, the claim as stated, under a solver that reports infeasibility and
    assigns no value: with one stop the exception raised is [KeyError], not
    [OptimizationError]; with no stop a candidate set is returned. *)
Lemma infeasible_solver_counterexample :
  (forall prob, lp_status (infeasible_cbc prob) = LpStatusInfeasible) /\
  get_top_stop_orders infeasible_cbc dm3 5 = Raise KeyError /\
  get_top_stop_orders infeasible_cbc dm3 5 ≠ Raise OptimizationError /\
  get_top_stop_orders infeasible_cbc dm2 5 = Ok [[0; 1]%Z].
Proof.
  split; [reflexivity|]. split; [reflexivity|]. split; [discriminate|].
  reflexivity.
Qed.

Lemma get_top_stop_orders_ignores_status_witness :
  get_top_stop_orders infeasible_cbc dm2 5
  = get_top_stop_orders optimistic_cbc dm2 5 /\
  get_top_stop_orders infeasible_cbc dm2 5 ≠ Raise OptimizationError.
Proof.
  apply (get_top_stop_orders_ignores_status infeasible_cbc optimistic_cbc dm2 5).
  intros prob v. reflexivity.
Defined.

Lemma compute_distance_matrix_shape_witness :
  exists nodes m,
    mapM (fun '(lon, lat) => nearest_nodes line_graph lon lat) line_points
      = Ok nodes /\
    compute_distance_matrix line_graph line_points = Ok m /\
    length m = length line_points /\
    (forall row, row ∈ m -> length row = length line_points) /\
    (forall i row, m !! i = Some row -> row !! i = Some (Finite 0)) /\
    (forall i j row c u v,
        i ≠ j -> m !! i = Some row -> row !! j = Some c ->
        nodes !! i = Some u -> nodes !! j = Some v ->
        match shortest_path_length line_graph u v with
        | Ok d => c = Finite d /\ (0 <= d)%Q
        | Raise _ => c = Infinity
        end).
Proof.
  apply (compute_distance_matrix_shape line_graph line_points).
  - intros [lon lat] _. simpl. by eexists.
  - intros u v d. simpl. destruct (Z.leb_spec u v); [|discriminate].
    intros [= <-]. change 0%Q with (inject_Z 0). rewrite <- Zle_Qle. lia.
  - intros u v e. simpl. destruct (u <=? v)%Z; [discriminate|].
    by intros [= <-].
Defined.

Lemma is_left_turn_iff_witness :
  is_left_turn sharp_left = true /\
  is_left_turn start_maneuver = false /\
  left_turns [sharp_left; start_maneuver] = 1.
Proof.
  destruct (is_left_turn_iff sharp_left) as (Hiff & _ & _ & Hcount).
  destruct (is_left_turn_iff start_maneuver) as (_ & Hdeg & _ & _).
  split; [|split].
  - apply Hiff. split; [reflexivity|].
    by exists "Turn "%string, " onto Main Street."%string.
  - apply Hdeg. reflexivity.
  - rewrite Hcount. reflexivity.
Defined.

(** C4, the claim as stated. With a float distance the sum is rounded:
    at [1e17] miles a left turn leaves the risk score where it was, and at
    [0.03] miles the second left turn adds [5 - 2^-50], not [5]. Nor is the
    score monotone in the distance across number types: the int [10^17]
    and the float [1e17] are the same distance, and the risk score of the
    first is the larger one. *)
Lemma risk_score_rounding_counterexample :
  is_left_turn sharp_left = true /\
  (exists r1 r2,
     route_of_leg (leg_of (10 ^ 17) 1200 [start_maneuver]) = Ok r1 /\
     route_of_leg (leg_of (10 ^ 17) 1200 [start_maneuver; sharp_left]) = Ok r2 /\
     risk_score r1 = PyFloat (Fin (10 ^ 17)) /\
     risk_score r2 = PyFloat (Fin (10 ^ 17))) /\
  (exists r1 r2 x1 x2,
     route_of_leg (leg_of three_hundredths 1200 [sharp_left]) = Ok r1 /\
     route_of_leg (leg_of three_hundredths 1200 [sharp_left; sharp_left])
       = Ok r2 /\
     risk_score r1 = PyFloat (Fin x1) /\
     risk_score r2 = PyFloat (Fin x2) /\
     (x2 - x1 == 5 - (1 # 2 ^ 50))%Q /\
     ~ (x2 - x1 == 5)%Q) /\
  (exists r1 r2,
     route_of_leg (int_leg_of (10 ^ 17) 1200 [sharp_left]) = Ok r1 /\
     route_of_leg (leg_of (10 ^ 17) 1200 [sharp_left]) = Ok r2 /\
     py_leb (distance r1) (distance r2) = true /\
     py_leb (risk_score r1) (risk_score r2) = false).
Proof.
  split; [reflexivity|]. split; [|split].
  - do 2 eexists. split; [vm_compute; reflexivity|].
    split; [vm_compute; reflexivity|]. split; reflexivity.
  - do 4 eexists. split; [vm_compute; reflexivity|].
    split; [vm_compute; reflexivity|]. split; [reflexivity|].
    split; [reflexivity|]. split; [reflexivity|]. discriminate.
  - do 2 eexists. split; [vm_compute; reflexivity|].
    split; [vm_compute; reflexivity|]. split; reflexivity.
Qed.

Lemma risk_score_formula_witness :
  py_add (PyFloat (Fin 10)) (Z.of_nat 1 * 5) = Ok (PyFloat (Fin 15)) /\
  PyInt 15 = PyInt (10 + 5 * Z.of_nat 1) /\
  py_leb (PyFloat (Fin 10)) (PyFloat (Fin 12)) = true /\
  (py_leb (PyFloat (Fin 10)) (PyFloat (Fin 15)) = true /\
   forall d, PyFloat (Fin 10) = PyInt d ->
     exists z, PyFloat (Fin 10) = PyInt z /\ PyFloat (Fin 15) = PyInt (z + 5)) /\
  (py_leb (PyInt 10) (PyInt 15) = true /\
   forall d, PyInt 10 = PyInt d ->
     exists z, PyInt 10 = PyInt z /\ PyInt 15 = PyInt (z + 5)) /\
  PyFloat (Fin 10) = PyFloat (Fin 10).
Proof.
  destruct risk_score_formula as (Hformula & Hint & Hmono & Hstep).
  pose (twenty := PyFloat (Fin 20)).
  split; [|split; [|split; [|split; [|split]]]].
  - apply (Hformula six_post [0; 1; 2; 3; 4; 5]%Z six_points
             default_valhalla_url
             (route_of (PyFloat (Fin 10)) twenty (PyFloat (Fin 15))
                [start_maneuver; sharp_left])).
    vm_compute. reflexivity.
  - apply (Hint (int_leg_of 10 1200 [sharp_left])
                (route_of (PyInt 10) twenty (PyInt 15) [sharp_left]) 10%Z).
    + vm_compute. reflexivity.
    + reflexivity.
  - apply (Hmono (leg_of 10 1200 [start_maneuver])
                 (leg_of 12 1200 [start_maneuver])
                 (route_of (PyFloat (Fin 10)) twenty (PyFloat (Fin 10))
                    [start_maneuver])
                 (route_of (PyFloat (Fin 12)) twenty (PyFloat (Fin 12))
                    [start_maneuver])).
    + reflexivity.
    + exact I.
    + reflexivity.
    + vm_compute. reflexivity.
    + vm_compute. reflexivity.
  - apply (Hstep (leg_of 10 1200 [start_maneuver])
                 (leg_of 10 1200 [start_maneuver; sharp_left])
                 (route_of (PyFloat (Fin 10)) twenty (PyFloat (Fin 10))
                    [start_maneuver])
                 (route_of (PyFloat (Fin 10)) twenty (PyFloat (Fin 15))
                    [start_maneuver; sharp_left])
                 [start_maneuver] sharp_left []).
    + reflexivity.
    + reflexivity.
    + reflexivity.
    + vm_compute. reflexivity.
    + vm_compute. reflexivity.
  - apply (Hstep (int_leg_of 10 1200 [start_maneuver])
                 (int_leg_of 10 1200 [start_maneuver; sharp_left])
                 (route_of (PyInt 10) twenty (PyInt 10) [start_maneuver])
                 (route_of (PyInt 10) twenty (PyInt 15)
                    [start_maneuver; sharp_left])
                 [start_maneuver] sharp_left []).
    + reflexivity.
    + reflexivity.
    + reflexivity.
    + vm_compute. reflexivity.
    + vm_compute. reflexivity.
  - apply (Hstep (leg_of 10 1200 [start_maneuver])
                 (leg_of 10 1200 [start_maneuver; sharp_right])
                 (route_of (PyFloat (Fin 10)) twenty (PyFloat (Fin 10))
                    [start_maneuver])
                 (route_of (PyFloat (Fin 10)) twenty (PyFloat (Fin 10))
                    [start_maneuver; sharp_right])
                 [start_maneuver] sharp_right []).
    + reflexivity.
    + reflexivity.
    + reflexivity.
    + vm_compute. reflexivity.
    + vm_compute. reflexivity.
Defined.

Lemma get_safe_route_passthrough_witness :
  exists payload code data leg,
    six_post default_valhalla_url payload = Response code (Some data) /\
    legs data !! 0 = Some leg /\
    py_truediv (summary_time (summary leg)) 60 = Ok (PyFloat (Fin 20)) /\
    PyFloat (Fin 10) = summary_length (summary leg) /\
    "_p~iF~ps|U"%string = shape leg /\
    [start_maneuver; sharp_left] = leg_maneuvers leg.
Proof.
  apply (proj1 get_safe_route_passthrough six_post [0; 1; 2; 3; 4; 5]%Z
           six_points default_valhalla_url
           (route_of (PyFloat (Fin 10)) (PyFloat (Fin 20)) (PyFloat (Fin 15))
              [start_maneuver; sharp_left])).
  vm_compute. reflexivity.
Defined.

Lemma select_routes_top_three_witness :
  returns_top_three six_post six_points six_orders.
Proof.
  apply (proj1 (proj2 (proj2 select_routes_top_three)) six_post six_points
           [0; 1; 2; 3; 4; 5]%Z 4%Z six_orders).
  - reflexivity.
  - vm_compute. lia.
Defined.

Lemma routing_failures_are_dropped_witness :
  analyze_routes offline_world (0, 0)%Q (2, 0)%Q [] = Ok [] /\
  select_routes failing_post six_points six_orders = Ok [] /\
  get_safe_route six_post [0; 3; 2; 1; 4; 5]%Z six_points default_valhalla_url
    = Raise RuntimeError /\
  successes six_post six_points [[0; 1; 2; 3; 4; 5]%Z]
    ++ successes six_post six_points [[0; 2; 1; 3; 4; 5]%Z]
    = [ route_of (PyFloat (Fin 10)) (PyFloat (Fin 20)) (PyFloat (Fin 15))
          [start_maneuver; sharp_left];
        route_of (PyFloat (Fin 15)) (PyFloat (Fin 25)) (PyFloat (Fin 15))
          [start_maneuver; sharp_right] ] /\
  evaluate_orders six_post six_points
    ([[0; 1; 2; 3; 4; 5]%Z] ++ [0; 3; 2; 1; 4; 5]%Z :: [[0; 2; 1; 3; 4; 5]%Z])
    = Ok (successes six_post six_points [[0; 1; 2; 3; 4; 5]%Z]
          ++ successes six_post six_points [[0; 2; 1; 3; 4; 5]%Z]) /\
  select_routes six_post six_points
    ([[0; 1; 2; 3; 4; 5]%Z] ++ [0; 3; 2; 1; 4; 5]%Z :: [[0; 2; 1; 3; 4; 5]%Z])
    = Ok (take 3 (sort_by_risk
            (successes six_post six_points [[0; 1; 2; 3; 4; 5]%Z]
             ++ successes six_post six_points [[0; 2; 1; 3; 4; 5]%Z]))).
Proof.
  destruct routing_failures_are_dropped as (Hall & Hrun & _ & _ & Hmixed).
  split; [|split; [|split; [|split]]].
  - apply (Hrun offline_world (0, 0)%Q (2, 0)%Q [] line_graph
             [[Finite 0; Finite 2]; [Infinity; Finite 0]] [[0; 1]%Z]).
    + vm_compute. reflexivity.
    + reflexivity.
    + reflexivity.
    + intros order ->%list_elem_of_singleton. reflexivity.
  - apply Hall. intros order Horder.
    repeat (apply elem_of_cons in Horder as [->|Horder]; [reflexivity|]).
    by apply elem_of_nil in Horder.
  - reflexivity.
  - vm_compute. reflexivity.
  - destruct (Hmixed six_post six_points [[0; 1; 2; 3; 4; 5]%Z]
                [0; 3; 2; 1; 4; 5]%Z [[0; 2; 1; 3; 4; 5]%Z])
      as (Heval & Hsel & _).
    + reflexivity.
    + intros o e Ho He.
      repeat (apply elem_of_cons in Ho as [->|Ho];
              [vm_compute in He; discriminate|]).
      by apply elem_of_nil in Ho.
    + split; [exact Heval | exact Hsel].
Defined.
